(** * OnlyMoji: the text-editing core of the emoji-only input screen

    Shallow embedding of the pure helpers of [src/app/app/main/TestScreen.tsx]
    ([insertAt], [deleteOneGrapheme], [filterNonEmoji]), of the keyboard
    ([EMOJI_SET], the keys of [EmojiKeyboard]) and of the handlers of the
    screen ([handleInsert], [handleBackspace], [handleFocus], [handleClose]
    and the callbacks of the text input), as functions on the component
    state.

    A JavaScript string is a sequence of UTF-16 code units; it is modelled
    as a [list Z] whose elements are meant to lie in [0, 65535]
    ([wf_string]).  Offsets are JavaScript numbers holding integers; they
    are modelled as [Z].  The built-ins the source relies on
    ([String.prototype.slice], the string iterator behind [Array.from],
    [codePointAt], [Array.prototype.pop], [join], [filter]) are written out
    after ECMA-262. *)

From Stdlib Require Import ZArith List Bool Lia.
Import ListNotations.
Local Open Scope Z_scope.

(* ===================================================================== *)
(** ** JavaScript strings and the built-ins used by the screen            *)
(* ===================================================================== *)

Module JS.

(** A string: its UTF-16 code units, in order. *)
Definition jsstring := list Z.

(** [s.length]: the number of code units. *)
Definition len (s : jsstring) : Z := Z.of_nat (length s).

(** Every code unit is a 16-bit value. *)
Definition is_code_unit (u : Z) : Prop := 0 <= u < 65536.
Definition wf_string (s : jsstring) : Prop := Forall is_code_unit s.

(** Leading (high) and trailing (low) surrogates. *)
Definition is_high (u : Z) : bool := (0xD800 <=? u) && (u <=? 0xDBFF).
Definition is_low (u : Z) : bool := (0xDC00 <=? u) && (u <=? 0xDFFF).

(** The relative-index resolution of [String.prototype.slice]: a negative
    index counts from the end, everything is then cut to [0, len]. *)
Definition relIndex (n i : Z) : Z :=
  if i <? 0 then Z.max (n + i) 0 else Z.min i n.

(** [s.slice(start, end)]; [end_ = None] is an omitted (undefined) end. *)
Definition slice (s : jsstring) (start : Z) (end_ : option Z) : jsstring :=
  let n := len s in
  let from := relIndex n start in
  let to := match end_ with
            | None => n
            | Some e => relIndex n e
            end in
  if from >=? to then []
  else firstn (Z.to_nat (to - from)) (skipn (Z.to_nat from) s).

(** Does a code point that starts with unit [c] take a second unit from
    [rest]?  (CodePointAt: a high surrogate directly followed by a low one.) *)
Definition starts_pair (c : Z) (rest : jsstring) : bool :=
  match rest with
  | d :: _ => is_high c && is_low d
  | [] => false
  end.

(** [Array.from(s)]: the string iterator yields one string per code point,
    two units long for a surrogate pair and one unit long otherwise (a lone
    surrogate is yielded by itself). *)
Fixpoint array_from (s : jsstring) : list jsstring :=
  match s with
  | [] => []
  | c :: rest =>
      match rest with
      | d :: rest' =>
          if is_high c && is_low d
          then [c; d] :: array_from rest'
          else [c] :: array_from rest
      | [] => [[c]]
      end
  end.

(** [ch.codePointAt(0)]; [None] is [undefined] (empty string). *)
Definition codePointAt0 (ch : jsstring) : option Z :=
  match ch with
  | [] => None
  | c :: rest =>
      match rest with
      | d :: _ =>
          if is_high c && is_low d
          then Some ((c - 0xD800) * 0x400 + (d - 0xDC00) + 0x10000)
          else Some c
      | [] => Some c
      end
  end.

(** [x ?? d]. *)
Definition nullish (x : option Z) (d : Z) : Z :=
  match x with
  | Some v => v
  | None => d
  end.

(** [Array.from(units)] on an array: a copy with the same elements. *)
Definition array_from_array (units : list jsstring) : list jsstring := units.

(** [units.join("")]. *)
Definition join (units : list jsstring) : jsstring := concat units.

(** [units.pop()], as the array it leaves behind (nothing happens to an
    empty array). *)
Definition pop (units : list jsstring) : list jsstring := removelast units.

End JS.

Import JS.

(* ===================================================================== *)
(** ** The functions of TestScreen.tsx                                    *)
(* ===================================================================== *)

(** [insertAt], lines 14-16. *)
Definition insertAt (input insert : jsstring) (start end_ : Z) : jsstring :=
  slice input 0 (Some start) ++ insert ++ slice input end_ None.

(** The object returned by [deleteOneGrapheme]. *)
Record Deleted : Type := mkDeleted {
  nextText : jsstring;
  nextCursor : Z
}.

(** [deleteOneGrapheme], lines 21-44.  [units] is the array after
    [units.pop()] has shortened it in place. *)
Definition deleteOneGrapheme (input : jsstring) (cursorStart cursorEnd : Z)
  : Deleted :=
  if negb (cursorStart =? cursorEnd) then
    {| nextText := slice input 0 (Some cursorStart) ++ slice input cursorEnd None;
       nextCursor := cursorStart |}
  else if cursorStart <=? 0 then
    {| nextText := input; nextCursor := cursorStart |}
  else
    let left := slice input 0 (Some cursorStart) in
    let right := slice input cursorStart None in
    let units := pop (array_from left) in
    {| nextText := join units ++ right;
       nextCursor := len (join (array_from_array units)) |}.

(** The predicate handed to [filter] in [filterNonEmoji], lines 143-154. *)
Definition keeps (ch : jsstring) : bool :=
  let code := nullish (codePointAt0 ch) 0 in
  let isAsciiLetterOrDigit :=
    ((code >=? 48) && (code <=? 57)) ||
    ((code >=? 65) && (code <=? 90)) ||
    ((code >=? 97) && (code <=? 122)) in
  let isHangul :=
    ((code >=? 0xac00) && (code <=? 0xd7a3)) ||
    ((code >=? 0x1100) && (code <=? 0x11ff)) in
  negb (isAsciiLetterOrDigit || isHangul).

(** [filterNonEmoji], lines 139-158. *)
Definition filterNonEmoji (text : jsstring) : jsstring :=
  let allowed := filter keeps (array_from text) in
  join allowed.

(** The component state held by the three [useState] hooks. *)
Record Selection : Type := mkSelection {
  sel_start : Z;
  sel_end : Z
}.

Record ScreenState : Type := mkScreen {
  value : jsstring;
  selection : Selection;
  openKB : bool
}.

(** [handleInsert], lines 166-173: the state after the two setters ran. *)
Definition handleInsert (st : ScreenState) (emoji : jsstring) : ScreenState :=
  let next := insertAt (value st) emoji
                (sel_start (selection st)) (sel_end (selection st)) in
  let nextCursor :=
    sel_start (selection st) + Z.of_nat (length (array_from emoji)) in
  {| value := next;
     selection := {| sel_start := nextCursor; sel_end := nextCursor |};
     openKB := openKB st |}.

(** [handleBackspace], lines 175-184. *)
Definition handleBackspace (st : ScreenState) : ScreenState :=
  let d := deleteOneGrapheme (value st)
             (sel_start (selection st)) (sel_end (selection st)) in
  {| value := nextText d;
     selection := {| sel_start := nextCursor d; sel_end := nextCursor d |};
     openKB := openKB st |}.

(** [onChangeText], line 213. *)
Definition onChangeText (st : ScreenState) (t : jsstring) : ScreenState :=
  {| value := filterNonEmoji t;
     selection := selection st;
     openKB := openKB st |}.

(** [EMOJI_SET], lines 53-94: the forty keys of the keyboard, each written
    as its UTF-16 code units. *)
Definition EMOJI_SET : list jsstring :=
  [
    [0xD83D; 0xDE00];          (* U+1F600 *)
    [0xD83D; 0xDE01];          (* U+1F601 *)
    [0xD83D; 0xDE02];          (* U+1F602 *)
    [0xD83E; 0xDD23];          (* U+1F923 *)
    [0xD83D; 0xDE0A];          (* U+1F60A *)
    [0xD83D; 0xDE0D];          (* U+1F60D *)
    [0xD83D; 0xDE18];          (* U+1F618 *)
    [0xD83E; 0xDD70];          (* U+1F970 *)
    [0xD83D; 0xDE0E];          (* U+1F60E *)
    [0xD83E; 0xDD29];          (* U+1F929 *)
    [0xD83E; 0xDD14];          (* U+1F914 *)
    [0xD83D; 0xDE34];          (* U+1F634 *)
    [0xD83D; 0xDE2D];          (* U+1F62D *)
    [0xD83D; 0xDE21];          (* U+1F621 *)
    [0xD83D; 0xDC4D];          (* U+1F44D *)
    [0xD83D; 0xDC4E];          (* U+1F44E *)
    [0xD83D; 0xDE4F];          (* U+1F64F *)
    [0xD83D; 0xDC4F];          (* U+1F44F *)
    [0xD83D; 0xDD25];          (* U+1F525 *)
    [0x2728];                  (* U+2728 *)
    [0xD83C; 0xDF89];          (* U+1F389 *)
    [0xD83D; 0xDCAF];          (* U+1F4AF *)
    [0x2705];                  (* U+2705 *)
    [0x274C];                  (* U+274C *)
    [0x26BD];                  (* U+26BD *)
    [0xD83C; 0xDFC0];          (* U+1F3C0 *)
    [0xD83C; 0xDF55];          (* U+1F355 *)
    [0xD83C; 0xDF54];          (* U+1F354 *)
    [0xD83C; 0xDF5F];          (* U+1F35F *)
    [0xD83C; 0xDF5C];          (* U+1F35C *)
    [0x2615];                  (* U+2615 *)
    [0xD83C; 0xDF7A];          (* U+1F37A *)
    [0xD83C; 0xDF1F];          (* U+1F31F *)
    [0xD83C; 0xDF08];          (* U+1F308 *)
    [0xD83C; 0xDF19];          (* U+1F319 *)
    [0x2600; 0xFE0F];          (* U+2600 U+FE0F *)
    [0xD83C; 0xDF27; 0xFE0F];  (* U+1F327 U+FE0F *)
    [0x26C4];                  (* U+26C4 *)
    [0xD83D; 0xDE97];          (* U+1F697 *)
    [0x2708; 0xFE0F]           (* U+2708 U+FE0F *)
  ].

(** The initial values of the three [useState] hooks, lines 131-136. *)
Definition initialState : ScreenState :=
  {| value := [];
     selection := {| sel_start := 0; sel_end := 0 |};
     openKB := false |}.

(** [handleFocus], lines 160-164.  [Keyboard.dismiss()] concerns the system
    keyboard only; the component state changes by [setOpenKB(true)]. *)
Definition handleFocus (st : ScreenState) : ScreenState :=
  {| value := value st; selection := selection st; openKB := true |}.

(** [handleClose], lines 186-188. *)
Definition handleClose (st : ScreenState) : ScreenState :=
  {| value := value st; selection := selection st; openKB := false |}.

(** [onPress] of the input wrapper, lines 197-201. *)
Definition onPressInput (st : ScreenState) : ScreenState :=
  {| value := value st; selection := selection st; openKB := true |}.

(** [onSelectionChange], line 215. *)
Definition onSelectionChange (st : ScreenState) (sel : Selection) : ScreenState :=
  {| value := value st; selection := sel; openKB := openKB st |}.

(** The pressables of [EmojiKeyboard], lines 96-125: one key per item of
    [EMOJI_SET] (calling [onInsert(item)]), the backspace key and the close
    button. *)
Inductive Key : Type :=
| KeyEmoji (idx : nat)
| KeyBackspace
| KeyClose.

(** What the wiring of lines 229-233 does for a key; an index without an
    item has no key. *)
Definition pressKey (st : ScreenState) (k : Key) : ScreenState :=
  match k with
  | KeyEmoji idx =>
      match nth_error EMOJI_SET idx with
      | Some item => handleInsert st item
      | None => st
      end
  | KeyBackspace => handleBackspace st
  | KeyClose => handleClose st
  end.

(** The events the screen reacts to, lines 190-237. *)
Inductive Event : Type :=
| EvKey (k : Key)
| EvOverlay
| EvFocus
| EvPressInput
| EvChangeText (t : jsstring)
| EvSelectionChange (sel : Selection).

(** The keyboard and the overlay are rendered only while [openKB] holds
    (lines 220 and 227). *)
Definition enabled (st : ScreenState) (ev : Event) : bool :=
  match ev with
  | EvKey _ | EvOverlay => openKB st
  | _ => true
  end.

Definition dispatch (st : ScreenState) (ev : Event) : ScreenState :=
  if enabled st ev then
    match ev with
    | EvKey k => pressKey st k
    | EvOverlay => handleClose st
    | EvFocus => handleFocus st
    | EvPressInput => onPressInput st
    | EvChangeText t => onChangeText st t
    | EvSelectionChange sel => onSelectionChange st sel
    end
  else st.

(** The state after a sequence of events, from the initial state. *)
Definition run (evs : list Event) : ScreenState :=
  fold_left dispatch evs initialState.

(** Events that come from the custom keyboard or only open and close it. *)
Definition keyboard_event (ev : Event) : bool :=
  match ev with
  | EvKey _ | EvOverlay | EvFocus | EvPressInput => true
  | EvChangeText _ | EvSelectionChange _ => false
  end.

(** States reached by keyboard events and by selection changes that report
    a selection inside the current text. *)
Inductive editing : ScreenState -> Prop :=
| editing_init : editing initialState
| editing_keyboard (st : ScreenState) (ev : Event) :
    editing st -> keyboard_event ev = true -> editing (dispatch st ev)
| editing_select (st : ScreenState) (sel : Selection) :
    editing st ->
    0 <= sel_start sel -> sel_start sel <= sel_end sel ->
    sel_end sel <= len (value st) ->
    editing (dispatch st (EvSelectionChange sel)).

(** The code point a piece of [Array.from] stands for, as [filterNonEmoji]
    reads it: [ch.codePointAt(0) ?? 0]. *)
Definition code_of (ch : jsstring) : Z := nullish (codePointAt0 ch) 0.

(** The two shapes of a piece of [Array.from]: one unit (satisfying [U]) or
    a surrogate pair. *)
Inductive piece_of (U : Z -> Prop) : jsstring -> Prop :=
| piece_unit (u : Z) : U u -> piece_of U [u]
| piece_pair (hi lo : Z) : is_high hi && is_low lo = true -> piece_of U [hi; lo].

(** The pieces of a string of 16-bit units. *)
Definition piece : jsstring -> Prop := piece_of is_code_unit.

(* ===================================================================== *)
(** ** The vocabulary of the specification                                *)
(* ===================================================================== *)

Module Spec.

(** [text[0:n]] and [text[n:]] for an offset [n] inside the text. *)
Definition upto (text : jsstring) (n : Z) : jsstring :=
  firstn (Z.to_nat n) text.
Definition from (text : jsstring) (n : Z) : jsstring :=
  skipn (Z.to_nat n) text.

(** Offsets cut to the bounds of a text of [n] code units. *)
Definition clamp (n i : Z) : Z := Z.max 0 (Z.min i n).

(** The code point sequence of a UTF-16 text.  A surrogate that is not part
    of a pair counts as a code point of its own. *)
Fixpoint codepoints (s : jsstring) : list Z :=
  match s with
  | [] => []
  | c :: rest =>
      match rest with
      | d :: rest' =>
          if is_high c && is_low d
          then (0x10000 + (c - 0xD800) * 0x400 + (d - 0xDC00)) :: codepoints rest'
          else c :: codepoints rest
      | [] => [c]
      end
  end.

(** The UTF-16 form of one code point, and of a sequence of them. *)
Definition encode_cp (cp : Z) : jsstring :=
  if cp <? 0x10000 then [cp]
  else [0xD800 + (cp - 0x10000) / 0x400; 0xDC00 + (cp - 0x10000) mod 0x400].

Definition reassemble (cps : list Z) : jsstring := flat_map encode_cp cps.

(** A code point outside the Basic Multilingual Plane. *)
Definition astral (cp : Z) : Prop := 0x10000 <= cp.

(** The code points the input filter strips. *)
Definition ascii_digit (cp : Z) : Prop := 48 <= cp <= 57.
Definition ascii_letter (cp : Z) : Prop := 65 <= cp <= 90 \/ 97 <= cp <= 122.
Definition hangul_syllable (cp : Z) : Prop := 0xAC00 <= cp <= 0xD7A3.
Definition hangul_jamo (cp : Z) : Prop := 0x1100 <= cp <= 0x11FF.

Definition stripped (cp : Z) : Prop :=
  ascii_digit cp \/ ascii_letter cp \/ hangul_syllable cp \/ hangul_jamo cp.

Definition strippedb (cp : Z) : bool :=
  ((48 <=? cp) && (cp <=? 57)) ||
  ((65 <=? cp) && (cp <=? 90)) || ((97 <=? cp) && (cp <=? 122)) ||
  ((0xAC00 <=? cp) && (cp <=? 0xD7A3)) ||
  ((0x1100 <=? cp) && (cp <=? 0x11FF)).

(** The code points of a text that survive the filter, in order. *)
Definition survivors (text : jsstring) : list Z :=
  filter (fun cp => negb (strippedb cp)) (codepoints text).

(** A Unicode scalar value: a code point that is not a surrogate. *)
Definition scalar_value (cp : Z) : Prop :=
  0 <= cp < 0xD800 \/ 0xE000 <= cp <= 0x10FFFF.

End Spec.

(* ===================================================================== *)
(** ** Sample texts                                                       *)
(* ===================================================================== *)

Module Sample.

(** U+1F600 GRINNING FACE and U+1F525 FIRE as surrogate pairs. *)
Definition grinning : jsstring := [0xD83D; 0xDE00].
Definition fire : jsstring := [0xD83D; 0xDD25].

(** "ab", "cd", "abc", "123". *)
Definition ab : jsstring := [97; 98].
Definition cd : jsstring := [99; 100].
Definition abc : jsstring := [97; 98; 99].
Definition digits123 : jsstring := [49; 50; 51].

(** U+C548 U+B155, the Hangul syllables of the greeting in the spec. *)
Definition annyeong : jsstring := [0xC548; 0xB155].

Definition ab_grinning_cd : jsstring := ab ++ grinning ++ cd.

(** An ill-formed text: the letter A between two unpaired surrogates. *)
Definition split_by_letter : jsstring := [0xD83D; 65; 0xDE00].

(** The screen of the insertion scenario: "ab", U+1F600, "cd", caret after
    "ab", keyboard open. *)
Definition scenario_state : ScreenState :=
  {| value := ab_grinning_cd;
     selection := {| sel_start := 2; sel_end := 2 |};
     openKB := true |}.

End Sample.

(* ===================================================================== *)
(** ** [slice]                                                            *)
(* ===================================================================== *)

Section SliceFacts.

Variable s : jsstring.

Lemma len_nonneg : 0 <= len s.
Proof. unfold len. lia. Qed.

Lemma relIndex_inside (i : Z) : 0 <= i <= len s -> relIndex (len s) i = i.
Proof. intros H. unfold relIndex. destruct (Z.ltb_spec i 0); lia. Qed.

Lemma relIndex_bounds (i : Z) : 0 <= relIndex (len s) i <= len s.
Proof.
  pose proof len_nonneg. unfold relIndex. destruct (Z.ltb_spec i 0); lia.
Qed.

Lemma relIndex_beyond (i : Z) :
  0 <= i -> relIndex (len s) i = Z.min i (len s).
Proof. intros H. unfold relIndex. destruct (Z.ltb_spec i 0); lia. Qed.

(** [s.slice(0, n)] is the prefix that ends at the resolved index. *)
Lemma slice_0_resolved (n : Z) :
  slice s 0 (Some n) = firstn (Z.to_nat (relIndex (len s) n)) s.
Proof.
  pose proof (relIndex_bounds n) as Hb. pose proof len_nonneg as Hl.
  unfold slice. rewrite (relIndex_inside 0) by lia.
  destruct (Z.geb_spec 0 (relIndex (len s) n)) as [Hz | Hz].
  - replace (relIndex (len s) n) with 0 by lia. reflexivity.
  - rewrite Z.sub_0_r. reflexivity.
Qed.

(** [s.slice(n)] is the suffix that starts at the resolved index. *)
Lemma slice_end_resolved (n : Z) :
  slice s n None = skipn (Z.to_nat (relIndex (len s) n)) s.
Proof.
  pose proof (relIndex_bounds n) as Hb.
  unfold slice.
  destruct (Z.geb_spec (relIndex (len s) n) (len s)) as [Hz | Hz].
  - symmetry. apply skipn_all2. unfold len in *. lia.
  - apply firstn_all2. rewrite length_skipn. unfold len in *. lia.
Qed.

Lemma slice_prefix (n : Z) :
  0 <= n <= len s -> slice s 0 (Some n) = Spec.upto s n.
Proof.
  intros H. rewrite slice_0_resolved, relIndex_inside by assumption.
  reflexivity.
Qed.

Lemma slice_suffix (n : Z) :
  0 <= n <= len s -> slice s n None = Spec.from s n.
Proof.
  intros H. rewrite slice_end_resolved, relIndex_inside by assumption.
  reflexivity.
Qed.

Lemma len_slice_0 (n : Z) : len (slice s 0 (Some n)) = relIndex (len s) n.
Proof.
  pose proof (relIndex_bounds n) as Hb.
  rewrite slice_0_resolved. unfold len in *. rewrite length_firstn. lia.
Qed.

Lemma len_slice_end (n : Z) :
  len (slice s n None) = len s - relIndex (len s) n.
Proof.
  pose proof (relIndex_bounds n) as Hb.
  rewrite slice_end_resolved. unfold len in *. rewrite length_skipn. lia.
Qed.

End SliceFacts.

Lemma slice_nil (a : Z) (b : option Z) : slice [] a b = [].
Proof.
  unfold slice. destruct (_ >=? _); [reflexivity |].
  rewrite skipn_nil. apply firstn_nil.
Qed.

Lemma len_app (a b : jsstring) : len (a ++ b) = len a + len b.
Proof. unfold len. rewrite length_app. lia. Qed.

(* ===================================================================== *)
(** ** [Array.from] on strings                                            *)
(* ===================================================================== *)

Lemma array_from_cons (c : Z) (rest : jsstring) :
  array_from (c :: rest) =
  if starts_pair c rest
  then [c; hd 0 rest] :: array_from (tl rest)
  else [c] :: array_from rest.
Proof.
  destruct rest as [| d rest']; simpl; [reflexivity |].
  destruct (is_high c && is_low d); reflexivity.
Qed.

(** Induction along the code points of a string. *)
Lemma codepoint_ind (P : jsstring -> Prop) :
  P [] ->
  (forall c rest, starts_pair c rest = false -> P rest -> P (c :: rest)) ->
  (forall c d rest, is_high c && is_low d = true -> P rest -> P (c :: d :: rest)) ->
  forall s, P s.
Proof.
  intros Hnil Hone Hpair s.
  assert (H : P s /\ forall c, P (c :: s)).
  { induction s as [| d s' [IHs IHc]].
    - split; [exact Hnil |]. intros c. apply Hone; [reflexivity | exact Hnil].
    - split; [apply IHc |]. intros c.
      destruct (is_high c && is_low d) eqn:E.
      + apply Hpair; assumption.
      + apply Hone; [simpl; exact E | apply IHc]. }
  exact (proj1 H).
Qed.

Lemma array_from_single (c : Z) (rest : jsstring) :
  starts_pair c rest = false -> array_from (c :: rest) = [c] :: array_from rest.
Proof. intros H. rewrite array_from_cons, H. reflexivity. Qed.

Lemma array_from_pair (c d : Z) (rest : jsstring) :
  is_high c && is_low d = true ->
  array_from (c :: d :: rest) = [c; d] :: array_from rest.
Proof. intros H. simpl. rewrite H. reflexivity. Qed.

(** Joining the pieces gives the string back. *)
Lemma join_array_from (s : jsstring) : join (array_from s) = s.
Proof.
  induction s as [| c rest Hc IH | c d rest Hp IH] using codepoint_ind.
  - reflexivity.
  - rewrite array_from_single by assumption. unfold join in *. simpl.
    rewrite IH. reflexivity.
  - rewrite array_from_pair by assumption. unfold join in *. simpl.
    rewrite IH. reflexivity.
Qed.

Lemma array_from_nil_inv (s : jsstring) : array_from s = [] -> s = [].
Proof.
  intros H. rewrite <- (join_array_from s), H. reflexivity.
Qed.

(** No piece is empty. *)
Lemma array_from_nonempty (s : jsstring) :
  Forall (fun p => p <> []) (array_from s).
Proof.
  induction s as [| c rest Hc IH | c d rest Hp IH] using codepoint_ind.
  - constructor.
  - rewrite array_from_single by assumption. constructor; [discriminate | exact IH].
  - rewrite array_from_pair by assumption. constructor; [discriminate | exact IH].
Qed.

(** Every piece is a single unit of the string or a surrogate pair. *)
Lemma array_from_pieces_of (U : Z -> Prop) (s : jsstring) :
  Forall U s -> Forall (piece_of U) (array_from s).
Proof.
  induction s as [| c rest Hc IH | c d rest Hp IH] using codepoint_ind;
    intros Hwf.
  - constructor.
  - rewrite array_from_single by assumption.
    inversion Hwf; subst. constructor; [constructor; assumption | auto].
  - rewrite array_from_pair by assumption.
    inversion Hwf as [| ? ? _ Hwf']; subst. inversion Hwf'; subst.
    constructor; [constructor; assumption | auto].
Qed.

Lemma array_from_pieces (s : jsstring) :
  wf_string s -> Forall piece (array_from s).
Proof. apply array_from_pieces_of. Qed.

Lemma Forall_trivial {A : Type} (l : list A) : Forall (fun _ => True) l.
Proof. induction l; constructor; auto. Qed.

Lemma array_from_shapes (s : jsstring) :
  Forall (piece_of (fun _ => True)) (array_from s).
Proof. apply array_from_pieces_of, Forall_trivial. Qed.

(** The decomposition never has more pieces than the string has units. *)
Lemma length_array_from (s : jsstring) :
  (length (array_from s) <= length s)%nat.
Proof.
  induction s as [| c rest Hc IH | c d rest Hp IH] using codepoint_ind.
  - simpl. lia.
  - rewrite array_from_single by assumption. simpl. lia.
  - rewrite array_from_pair by assumption. simpl. lia.
Qed.

(** The specification's code point sequence is what [Array.from] and
    [codePointAt] compute together. *)
Lemma codepoints_array_from (s : jsstring) :
  Spec.codepoints s = map code_of (array_from s).
Proof.
  induction s as [| c rest Hc IH | c d rest Hp IH] using codepoint_ind.
  - reflexivity.
  - rewrite array_from_single by assumption. simpl map. rewrite <- IH.
    destruct rest as [| d rest']; [reflexivity |].
    simpl in Hc. simpl. rewrite Hc. reflexivity.
  - rewrite array_from_pair by assumption. simpl map. rewrite <- IH.
    unfold code_of, codePointAt0, nullish. cbn [Spec.codepoints].
    rewrite Hp. f_equal. lia.
Qed.

(** Encoding the code point of a piece gives the piece back. *)
Lemma encode_code_of (p : jsstring) : piece p -> Spec.encode_cp (code_of p) = p.
Proof.
  intros [u Hu | hi lo Hp].
  - unfold code_of, Spec.encode_cp. simpl.
    unfold is_code_unit in Hu.
    destruct (Z.ltb_spec u 0x10000); [reflexivity | lia].
  - unfold code_of, Spec.encode_cp, codePointAt0, nullish. rewrite Hp.
    unfold is_high, is_low in Hp.
    apply andb_prop in Hp as [Hh Hl].
    apply andb_prop in Hh as [Hh1 Hh2]. apply andb_prop in Hl as [Hl1 Hl2].
    apply Z.leb_le in Hh1, Hh2, Hl1, Hl2.
    destruct (Z.ltb_spec ((hi - 0xD800) * 0x400 + (lo - 0xDC00) + 0x10000) 0x10000);
      [lia |].
    replace ((hi - 0xD800) * 0x400 + (lo - 0xDC00) + 0x10000 - 0x10000)
      with ((lo - 0xDC00) + (hi - 0xD800) * 0x400) by lia.
    rewrite Z.div_add by lia. rewrite Z.mod_add by lia.
    rewrite Z.div_small, Z.mod_small by lia.
    f_equal; [lia | f_equal; lia].
Qed.

Lemma reassemble_pieces (ps : list jsstring) :
  Forall piece ps -> Spec.reassemble (map code_of ps) = join ps.
Proof.
  induction 1 as [| p ps Hp _ IH]; [reflexivity |].
  unfold Spec.reassemble, join in *. simpl.
  rewrite IH, encode_code_of by assumption. reflexivity.
Qed.

(** Decoding then encoding a well-formed string is the identity. *)
Lemma reassemble_codepoints (s : jsstring) :
  wf_string s -> Spec.reassemble (Spec.codepoints s) = s.
Proof.
  intros Hwf. rewrite codepoints_array_from.
  rewrite reassemble_pieces by (apply array_from_pieces; exact Hwf).
  apply join_array_from.
Qed.

(** A prefix of the decomposition of a string is the decomposition of what
    it joins to: cutting at a piece boundary never changes earlier pieces. *)
Lemma starts_pair_app (c : Z) (x y : jsstring) :
  x <> [] -> starts_pair c (x ++ y) = starts_pair c x.
Proof. destruct x; [congruence | reflexivity]. Qed.

Lemma array_from_join_prefix (l1 : list jsstring) :
  forall (s : jsstring) (l2 : list jsstring),
    array_from s = l1 ++ l2 -> array_from (join l1) = l1.
Proof.
  induction l1 as [| p l1' IH]; intros s l2 H; [reflexivity |].
  destruct s as [| c rest]; [discriminate |].
  rewrite array_from_cons in H.
  destruct (starts_pair c rest) eqn:E.
  - destruct rest as [| d rest']; [discriminate |].
    simpl in E, H. injection H as Hp Hrest. subst p.
    change (join ([c; d] :: l1')) with (c :: d :: join l1').
    rewrite array_from_pair by exact E.
    f_equal. exact (IH _ _ Hrest).
  - simpl in H. injection H as Hp Hrest. subst p.
    change (join ([c] :: l1')) with (c :: join l1').
    rewrite array_from_single; [f_equal; exact (IH _ _ Hrest) |].
    destruct l1' as [| q l1'']; [reflexivity |].
    pose proof (array_from_nonempty rest) as Hne.
    rewrite Hrest in Hne. inversion Hne as [| ? ? Hq _]; subst.
    rewrite <- (join_array_from rest), Hrest in E.
    change (join ((q :: l1'') ++ l2)) with (q ++ join (l1'' ++ l2)) in E.
    change (join (q :: l1'')) with (q ++ join l1'').
    rewrite starts_pair_app in E |- * by exact Hq. exact E.
Qed.

Lemma array_from_join_pop (s : jsstring) :
  array_from (join (pop (array_from s))) = pop (array_from s).
Proof.
  unfold pop. destruct (array_from s) as [| p ps] eqn:E; [reflexivity |].
  apply array_from_join_prefix with (s := s) (l2 := [last (p :: ps) []]).
  rewrite E. apply app_removelast_last. discriminate.
Qed.

Lemma removelast_map {A B : Type} (f : A -> B) (l : list A) :
  removelast (map f l) = map f (removelast l).
Proof.
  induction l as [| a [| b l'] IH]; try reflexivity.
  change (f a :: removelast (map f (b :: l')) = f a :: map f (removelast (b :: l'))).
  rewrite IH. reflexivity.
Qed.

Lemma Forall_removelast {A : Type} (P : A -> Prop) (l : list A) :
  Forall P l -> Forall P (removelast l).
Proof.
  induction 1 as [| a [| b l'] Ha Hl IH]; try constructor; assumption.
Qed.

Lemma length_removelast_succ {A : Type} (l : list A) :
  l <> [] -> (length (removelast l) + 1 = length l)%nat.
Proof.
  induction l as [| a [| b l'] IH]; intros H; [congruence | reflexivity |].
  change (S (length (removelast (b :: l')) + 1) = S (length (b :: l')))%nat.
  rewrite IH by discriminate. reflexivity.
Qed.

(* ===================================================================== *)
(** ** The filter predicate                                               *)
(* ===================================================================== *)

Lemma strippedb_iff (cp : Z) : Spec.strippedb cp = true <-> Spec.stripped cp.
Proof.
  unfold Spec.strippedb, Spec.stripped, Spec.ascii_digit, Spec.ascii_letter,
    Spec.hangul_syllable, Spec.hangul_jamo.
  rewrite !orb_true_iff, !andb_true_iff, !Z.leb_le. tauto.
Qed.

(** [keeps] tests the code point of the piece against the stripped set. *)
Lemma keeps_code_of (ch : jsstring) :
  keeps ch = negb (Spec.strippedb (code_of ch)).
Proof.
  unfold keeps, Spec.strippedb. fold (code_of ch).
  rewrite !Z.geb_leb, !orb_assoc. reflexivity.
Qed.

Lemma strippedb_surrogate (u : Z) :
  is_high u || is_low u = true -> Spec.strippedb u = false.
Proof.
  unfold is_high, is_low. intros H.
  destruct (Spec.strippedb u) eqn:E; [| reflexivity].
  apply strippedb_iff in E.
  rewrite orb_true_iff, !andb_true_iff, !Z.leb_le in H.
  unfold Spec.stripped, Spec.ascii_digit, Spec.ascii_letter,
    Spec.hangul_syllable, Spec.hangul_jamo in E. lia.
Qed.

Lemma pair_bounds (hi lo : Z) :
  is_high hi && is_low lo = true ->
  0xD800 <= hi <= 0xDBFF /\ 0xDC00 <= lo <= 0xDFFF.
Proof.
  unfold is_high, is_low. rewrite !andb_true_iff, !Z.leb_le. lia.
Qed.

Lemma code_of_unit (u : Z) : code_of [u] = u.
Proof. reflexivity. Qed.

Lemma code_of_pair (hi lo : Z) :
  is_high hi && is_low lo = true ->
  code_of [hi; lo] = (hi - 0xD800) * 0x400 + (lo - 0xDC00) + 0x10000.
Proof. intros H. unfold code_of, codePointAt0, nullish. rewrite H. reflexivity. Qed.

(** A surrogate pair always stands for an astral code point, which the
    filter keeps. *)
Lemma code_of_pair_astral (hi lo : Z) :
  is_high hi && is_low lo = true -> Spec.astral (code_of [hi; lo]).
Proof.
  intros H. rewrite code_of_pair by exact H.
  apply pair_bounds in H. unfold Spec.astral. lia.
Qed.

Lemma strippedb_astral (cp : Z) : Spec.astral cp -> Spec.strippedb cp = false.
Proof.
  unfold Spec.astral. intros H.
  destruct (Spec.strippedb cp) eqn:E; [| reflexivity].
  apply strippedb_iff in E.
  unfold Spec.stripped, Spec.ascii_digit, Spec.ascii_letter,
    Spec.hangul_syllable, Spec.hangul_jamo in E. lia.
Qed.

Lemma keeps_pair (hi lo : Z) :
  is_high hi && is_low lo = true -> keeps [hi; lo] = true.
Proof.
  intros H. rewrite keeps_code_of, strippedb_astral; [reflexivity |].
  apply code_of_pair_astral, H.
Qed.

Lemma Forall_filter_keep {A : Type} (P : A -> Prop) (f : A -> bool) (l : list A) :
  Forall P l -> Forall P (filter f l).
Proof.
  induction 1 as [| a l Ha _ IH]; simpl; [constructor |].
  destruct (f a); [constructor |]; assumption.
Qed.

(** Every code unit the filter lets through is itself outside the stripped
    set. *)
Lemma filterNonEmoji_units (text : jsstring) :
  Forall (fun u => Spec.strippedb u = false) (filterNonEmoji text).
Proof.
  unfold filterNonEmoji, join. apply Forall_concat.
  pose proof (array_from_shapes text) as Hs.
  induction Hs as [| p ps Hp _ IH]; simpl; [constructor |].
  destruct (keeps p) eqn:K; [| exact IH].
  constructor; [| exact IH].
  destruct Hp as [u _ | hi lo Hpair].
  - rewrite keeps_code_of, code_of_unit in K.
    constructor; [| constructor]. destruct (Spec.strippedb u); [discriminate | reflexivity].
  - apply andb_prop in Hpair as [Hh Hl].
    constructor; [| constructor; [| constructor]];
      apply strippedb_surrogate; [rewrite Hh | rewrite Hl, orb_true_r]; reflexivity.
Qed.

(** A text made of such units passes the filter unchanged. *)
Lemma filter_keeps_fixed (s : jsstring) :
  Forall (fun u => Spec.strippedb u = false) s ->
  filter keeps (array_from s) = array_from s.
Proof.
  induction s as [| c rest Hc IH | c d rest Hp IH] using codepoint_ind;
    intros H.
  - reflexivity.
  - rewrite array_from_single by assumption.
    inversion H as [| ? ? Hu Hrest]; subst.
    simpl. rewrite keeps_code_of, code_of_unit, Hu. simpl.
    rewrite IH by assumption. reflexivity.
  - rewrite array_from_pair by assumption.
    inversion H as [| ? ? _ H']; subst. inversion H' as [| ? ? _ Hrest]; subst.
    simpl filter. rewrite keeps_pair by assumption.
    rewrite IH by assumption. reflexivity.
Qed.

(** Filtering pieces is filtering code points. *)
Lemma map_code_of_filter (ps : list jsstring) :
  map code_of (filter keeps ps) =
  filter (fun cp => negb (Spec.strippedb cp)) (map code_of ps).
Proof.
  induction ps as [| p ps IH]; [reflexivity |].
  simpl. rewrite keeps_code_of.
  destruct (Spec.strippedb (code_of p)); simpl; rewrite IH; reflexivity.
Qed.

(* ===================================================================== *)
(** ** Insertion and deletion inside the text                             *)
(* ===================================================================== *)

(** C1.  For offsets with [0 <= start <= end <= length(text)] (in code
    units), [insertAt(text, fragment, start, end)] is exactly
    [text[0:start] + fragment + text[end:]]. *)
Theorem insertAt_spec (text fragment : jsstring) (start end_ : Z) :
  0 <= start -> start <= end_ -> end_ <= len text ->
  insertAt text fragment start end_ =
  Spec.upto text start ++ fragment ++ Spec.from text end_.
Proof.
  intros H0 H1 H2. unfold insertAt.
  rewrite slice_prefix, slice_suffix by lia. reflexivity.
Qed.

Lemma insertAt_spec_witness :
  insertAt Sample.ab_grinning_cd Sample.fire 2 4 =
  Spec.upto Sample.ab_grinning_cd 2 ++ Sample.fire ++
  Spec.from Sample.ab_grinning_cd 4.
Proof. apply insertAt_spec; vm_compute; discriminate. Defined.

(** C3.  With a non-empty selection [0 <= s < e <= length(T)],
    [deleteOneGrapheme(T, s, e)] returns [T[0:s] + T[e:]] and cursor [s]. *)
Theorem deleteOneGrapheme_range (T : jsstring) (s e : Z) :
  0 <= s -> s < e -> e <= len T ->
  deleteOneGrapheme T s e =
  {| nextText := Spec.upto T s ++ Spec.from T e; nextCursor := s |}.
Proof.
  intros H0 H1 H2. unfold deleteOneGrapheme.
  destruct (Z.eqb_spec s e) as [Heq | Hne]; [lia |]. simpl.
  rewrite slice_prefix, slice_suffix by lia. reflexivity.
Qed.

Lemma deleteOneGrapheme_range_witness :
  deleteOneGrapheme Sample.ab_grinning_cd 2 4 =
  {| nextText := Spec.upto Sample.ab_grinning_cd 2 ++
                 Spec.from Sample.ab_grinning_cd 4;
     nextCursor := 2 |}.
Proof.
  apply deleteOneGrapheme_range; vm_compute; first [discriminate | reflexivity].
Defined.

(** C4.  [deleteOneGrapheme(T, 0, 0)] returns [T] unchanged and cursor 0. *)
Theorem deleteOneGrapheme_at_start (T : jsstring) :
  deleteOneGrapheme T 0 0 = {| nextText := T; nextCursor := 0 |}.
Proof. reflexivity. Qed.

(** The caret branch of [deleteOneGrapheme], for a caret inside the text. *)
Lemma deleteOneGrapheme_caret_eq (T : jsstring) (c : Z) :
  0 < c <= len T ->
  deleteOneGrapheme T c c =
  {| nextText := join (pop (array_from (Spec.upto T c))) ++ Spec.from T c;
     nextCursor := len (join (pop (array_from (Spec.upto T c)))) |}.
Proof.
  intros H. unfold deleteOneGrapheme.
  rewrite Z.eqb_refl. simpl negb. cbv iota.
  destruct (Z.leb_spec c 0) as [Hle | Hgt]; [lia |].
  rewrite slice_prefix, slice_suffix by lia. reflexivity.
Qed.

Lemma upto_nonempty (T : jsstring) (c : Z) :
  0 < c <= len T -> Spec.upto T c <> [].
Proof.
  intros H E. apply (f_equal (@length Z)) in E.
  unfold Spec.upto, len in *. rewrite length_firstn in E. simpl in E. lia.
Qed.

Lemma wf_upto (T : jsstring) (c : Z) : wf_string T -> wf_string (Spec.upto T c).
Proof.
  unfold wf_string, Spec.upto. intros H.
  rewrite <- (firstn_skipn (Z.to_nat c) T) in H.
  apply Forall_app in H. tauto.
Qed.

(** C2.  With a caret [0 < c <= length(T)] and no selection,
    [deleteOneGrapheme(T, c, c)] returns the code points of [T[0:c]] without
    the last one, reassembled, followed by [T[c:]]; the cursor is the
    code-unit length of that reassembled left part.  The left part then
    decomposes into exactly the kept code points, one fewer than before. *)
Theorem deleteOneGrapheme_caret (T : jsstring) (c : Z) :
  wf_string T -> 0 < c <= len T ->
  let kept := removelast (Spec.codepoints (Spec.upto T c)) in
  deleteOneGrapheme T c c =
    {| nextText := Spec.reassemble kept ++ Spec.from T c;
       nextCursor := len (Spec.reassemble kept) |} /\
  Spec.codepoints (Spec.reassemble kept) = kept /\
  (length kept + 1 = length (Spec.codepoints (Spec.upto T c)))%nat.
Proof.
  intros Hwf Hc kept.
  assert (Hk : Spec.reassemble kept = join (pop (array_from (Spec.upto T c)))).
  { unfold kept. rewrite codepoints_array_from, removelast_map.
    apply reassemble_pieces, Forall_removelast, array_from_pieces, wf_upto, Hwf. }
  repeat split.
  - rewrite Hk. apply deleteOneGrapheme_caret_eq, Hc.
  - rewrite Hk, codepoints_array_from, array_from_join_pop.
    unfold kept, pop. rewrite codepoints_array_from, removelast_map. reflexivity.
  - unfold kept. apply length_removelast_succ.
    rewrite codepoints_array_from. intros E. apply map_eq_nil in E.
    apply array_from_nil_inv in E. exact (upto_nonempty T c Hc E).
Qed.

Lemma deleteOneGrapheme_caret_witness :
  let kept := removelast (Spec.codepoints (Spec.upto Sample.ab_grinning_cd 4)) in
  deleteOneGrapheme Sample.ab_grinning_cd 4 4 =
    {| nextText := Spec.reassemble kept ++ Spec.from Sample.ab_grinning_cd 4;
       nextCursor := len (Spec.reassemble kept) |} /\
  Spec.codepoints (Spec.reassemble kept) = kept /\
  (length kept + 1 =
   length (Spec.codepoints (Spec.upto Sample.ab_grinning_cd 4)))%nat.
Proof.
  apply deleteOneGrapheme_caret.
  - repeat constructor; vm_compute; discriminate.
  - vm_compute. split; [reflexivity | discriminate].
Defined.

(** The emoji before the caret goes as a whole: both of its code units. *)
Example delete_grinning :
  deleteOneGrapheme Sample.ab_grinning_cd 4 4 =
  {| nextText := Sample.ab ++ Sample.cd; nextCursor := 2 |}.
Proof. reflexivity. Qed.

(* ===================================================================== *)
(** ** The input filter                                                   *)
(* ===================================================================== *)

(** On a text without unpaired surrogates the result also decomposes into
    exactly the surviving code points. *)
Lemma array_from_join_scalar (ps : list jsstring) :
  Forall (piece_of (fun u => is_high u = false)) ps ->
  array_from (join ps) = ps.
Proof.
  induction 1 as [| p ps Hp _ IH]; [reflexivity |].
  destruct Hp as [u Hu | hi lo Hpair].
  - change (join ([u] :: ps)) with (u :: join ps).
    rewrite array_from_single, IH; [reflexivity |].
    unfold starts_pair. destruct (join ps); [reflexivity |].
    rewrite Hu. reflexivity.
  - change (join ([hi; lo] :: ps)) with (hi :: lo :: join ps).
    rewrite array_from_pair, IH by assumption. reflexivity.
Qed.

Lemma scalar_pieces (s : jsstring) :
  Forall Spec.scalar_value (Spec.codepoints s) ->
  Forall (piece_of (fun u => is_high u = false)) (array_from s).
Proof.
  rewrite codepoints_array_from, Forall_map. intros H.
  pose proof (array_from_shapes s) as Hs.
  induction Hs as [| p ps Hp _ IH]; [constructor |].
  inversion H as [| ? ? Hsc Hrest]; subst.
  constructor; [| exact (IH Hrest)].
  destruct Hp as [u _ | hi lo Hpair]; [| constructor; exact Hpair].
  constructor. rewrite code_of_unit in Hsc.
  unfold Spec.scalar_value in Hsc. unfold is_high.
  destruct (Z.leb_spec 0xD800 u), (Z.leb_spec u 0xDBFF); simpl; try reflexivity; lia.
Qed.

Lemma filterNonEmoji_codepoints (T : jsstring) :
  Forall Spec.scalar_value (Spec.codepoints T) ->
  Spec.codepoints (filterNonEmoji T) = Spec.survivors T.
Proof.
  intros H. unfold filterNonEmoji, Spec.survivors.
  rewrite !codepoints_array_from, <- map_code_of_filter.
  rewrite array_from_join_scalar; [reflexivity |].
  apply Forall_filter_keep, scalar_pieces, H.
Qed.

(** C5.  [filterNonEmoji] is a total function; on every text of 16-bit code
    units its result is the reassembly, in the original order, of exactly
    those code points of the text that are neither ASCII digits, nor ASCII
    letters, nor in U+AC00-U+D7A3, nor in U+1100-U+11FF.  When the text is a
    sequence of Unicode scalar values, decomposing the result gives those
    code points back. *)
Theorem filterNonEmoji_spec (T : jsstring) :
  wf_string T ->
  filterNonEmoji T = Spec.reassemble (Spec.survivors T) /\
  (Forall Spec.scalar_value (Spec.codepoints T) ->
   Spec.codepoints (filterNonEmoji T) = Spec.survivors T) /\
  (forall cp, In cp (Spec.survivors T) <->
              In cp (Spec.codepoints T) /\ ~ Spec.stripped cp).
Proof.
  intros Hwf. split; [| split].
  - unfold filterNonEmoji, Spec.survivors.
    rewrite codepoints_array_from, <- map_code_of_filter.
    symmetry. apply reassemble_pieces, Forall_filter_keep, array_from_pieces, Hwf.
  - apply filterNonEmoji_codepoints.
  - intros cp. unfold Spec.survivors. rewrite filter_In, <- strippedb_iff.
    destruct (Spec.strippedb cp); simpl; intuition congruence.
Qed.

Lemma filterNonEmoji_spec_witness :
  filterNonEmoji (Sample.grinning ++ Sample.abc) =
    Spec.reassemble (Spec.survivors (Sample.grinning ++ Sample.abc)) /\
  Spec.codepoints (filterNonEmoji (Sample.grinning ++ Sample.abc)) =
    Spec.survivors (Sample.grinning ++ Sample.abc) /\
  (forall cp, In cp (Spec.survivors (Sample.grinning ++ Sample.abc)) <->
              In cp (Spec.codepoints (Sample.grinning ++ Sample.abc)) /\
              ~ Spec.stripped cp).
Proof.
  destruct (filterNonEmoji_spec (Sample.grinning ++ Sample.abc)) as (H1 & H2 & H3).
  - repeat constructor; vm_compute; discriminate.
  - split; [exact H1 | split; [| exact H3]].
    apply H2. change (Forall Spec.scalar_value [0x1F600; 97; 98; 99]).
    repeat constructor; unfold Spec.scalar_value; lia.
Defined.

(** The two scenarios of the specification. *)
Example filter_grinning_abc :
  filterNonEmoji (Sample.grinning ++ Sample.abc) = Sample.grinning.
Proof. reflexivity. Qed.

Example filter_annyeong_123 :
  filterNonEmoji (Sample.annyeong ++ Sample.digits123) = [].
Proof. reflexivity. Qed.

(** Stripping the letter between two unpaired surrogates lets them meet:
    the result is the single code point U+1F600. *)
Example filter_joins_surrogates :
  filterNonEmoji Sample.split_by_letter = Sample.grinning /\
  Spec.survivors Sample.split_by_letter = [0xD83D; 0xDE00] /\
  Spec.codepoints (filterNonEmoji Sample.split_by_letter) = [0x1F600].
Proof. repeat split. Qed.

(** C6.  [filterNonEmoji] is idempotent. *)
Theorem filterNonEmoji_idempotent (T : jsstring) :
  filterNonEmoji (filterNonEmoji T) = filterNonEmoji T.
Proof.
  unfold filterNonEmoji at 1.
  rewrite filter_keeps_fixed by apply filterNonEmoji_units.
  apply join_array_from.
Qed.

(* ===================================================================== *)
(** ** The caret after an edit                                            *)
(* ===================================================================== *)

(** C7.  In the scenario, [insertAt] gives "ab", U+1F525, U+1F600, "cd", but
    [handleInsert] moves the caret to 3 (2 plus the one code point of the
    fragment), not to 4 (2 plus its two code units), although every offset
    is read in code units; the caret now sits between the two surrogates of
    U+1F525, and a backspace there leaves its low surrogate behind. *)
Theorem handleInsert_scenario :
  insertAt Sample.ab_grinning_cd Sample.fire 2 2 =
    Sample.ab ++ Sample.fire ++ Sample.grinning ++ Sample.cd /\
  selection (handleInsert Sample.scenario_state Sample.fire) =
    {| sel_start := 3; sel_end := 3 |} /\
  2 + len Sample.fire = 4 /\
  Spec.from (value (handleInsert Sample.scenario_state Sample.fire)) 3 =
    [0xDD25] ++ Sample.grinning ++ Sample.cd /\
  value (handleBackspace (handleInsert Sample.scenario_state Sample.fire)) =
    Sample.ab ++ [0xDD25] ++ Sample.grinning ++ Sample.cd.
Proof. repeat split. Qed.

Lemma len_join_pop_le (s : jsstring) : len (join (pop (array_from s))) <= len s.
Proof.
  unfold pop. destruct (array_from s) as [| p ps] eqn:E.
  - simpl. apply len_nonneg.
  - assert (Hs : s = join (removelast (p :: ps)) ++ join [last (p :: ps) []]).
    { rewrite <- (join_array_from s) at 1. rewrite E. unfold join.
      rewrite <- concat_app, <- app_removelast_last by discriminate.
      reflexivity. }
    rewrite Hs, len_app.
    pose proof (len_nonneg (join [last (p :: ps) []])). lia.
Qed.

(** C8.  From a selection with [0 <= s <= e <= length(T)], the cursor
    returned by [deleteOneGrapheme] lies within the text it returns, and the
    caret set by [handleInsert] lies within the text it sets. *)
Theorem selection_stays_in_bounds (T fragment : jsstring) (s e : Z) (kb : bool) :
  0 <= s -> s <= e -> e <= len T ->
  let d := deleteOneGrapheme T s e in
  let st := handleInsert
              {| value := T;
                 selection := {| sel_start := s; sel_end := e |};
                 openKB := kb |} fragment in
  0 <= nextCursor d <= len (nextText d) /\
  0 <= sel_start (selection st) <= len (value st) /\
  sel_end (selection st) = sel_start (selection st).
Proof.
  intros H0 H1 H2 d st. split; [| split].
  - unfold d. destruct (Z.eq_dec s e) as [<- | Hne].
    + destruct (Z.eq_dec s 0) as [-> | Hpos].
      * change (deleteOneGrapheme T 0 0) with (mkDeleted T 0). simpl.
        pose proof (len_nonneg T). lia.
      * rewrite deleteOneGrapheme_caret_eq by lia. simpl.
        rewrite len_app.
        pose proof (len_nonneg (join (pop (array_from (Spec.upto T s))))).
        pose proof (len_nonneg (Spec.from T s)). lia.
    + unfold deleteOneGrapheme.
      destruct (Z.eqb_spec s e) as [Heq | _]; [contradiction |]. simpl.
      rewrite slice_prefix, slice_suffix by lia.
      rewrite len_app. unfold Spec.upto, Spec.from, len in *.
      rewrite length_firstn, length_skipn. lia.
  - unfold st, handleInsert. simpl.
    unfold insertAt. rewrite slice_prefix, slice_suffix by lia.
    rewrite !len_app.
    pose proof (length_array_from fragment).
    unfold Spec.upto, Spec.from, len in *.
    rewrite length_firstn, length_skipn. lia.
  - reflexivity.
Qed.

Lemma selection_stays_in_bounds_witness :
  let d := deleteOneGrapheme Sample.ab_grinning_cd 2 4 in
  let st := handleInsert
              {| value := Sample.ab_grinning_cd;
                 selection := {| sel_start := 2; sel_end := 4 |};
                 openKB := true |} Sample.fire in
  0 <= nextCursor d <= len (nextText d) /\
  0 <= sel_start (selection st) <= len (value st) /\
  sel_end (selection st) = sel_start (selection st).
Proof.
  apply selection_stays_in_bounds; vm_compute; discriminate.
Defined.

(* ===================================================================== *)
(** ** Offsets outside the text                                           *)
(* ===================================================================== *)

(** C9, as stated: clamping fails for a negative offset, which [slice]
    counts from the end of the text, and for a selection that lies wholly
    beyond the end, which is left as a selection. *)
Lemma offsets_not_clamped :
  insertAt Sample.ab [88] (-1) (-1) <>
    insertAt Sample.ab [88]
      (Spec.clamp (len Sample.ab) (-1)) (Spec.clamp (len Sample.ab) (-1)) /\
  deleteOneGrapheme Sample.ab 5 7 <>
    deleteOneGrapheme Sample.ab
      (Spec.clamp (len Sample.ab) 5) (Spec.clamp (len Sample.ab) 7).
Proof. split; vm_compute; discriminate. Qed.

Example insertAt_negative_offset :
  insertAt Sample.ab [88] (-1) (-1) = [97; 88; 98] /\
  insertAt Sample.ab [88] 0 0 = [88; 97; 98].
Proof. split; reflexivity. Qed.

Example deleteOneGrapheme_beyond_end :
  deleteOneGrapheme Sample.ab 5 7 = {| nextText := Sample.ab; nextCursor := 5 |} /\
  deleteOneGrapheme Sample.ab 2 2 = {| nextText := [97]; nextCursor := 1 |}.
Proof. split; reflexivity. Qed.

Example deleteOneGrapheme_negative_caret :
  deleteOneGrapheme Sample.ab (-3) (-3) =
  {| nextText := Sample.ab; nextCursor := -3 |}.
Proof. reflexivity. Qed.

Lemma clamp_nonneg (n i : Z) : 0 <= n -> 0 <= i -> Spec.clamp n i = Z.min i n.
Proof. unfold Spec.clamp. lia. Qed.

Lemma relIndex_clamp (s : jsstring) (i : Z) :
  0 <= i -> relIndex (len s) (Spec.clamp (len s) i) = relIndex (len s) i.
Proof.
  intros H. pose proof (len_nonneg s).
  rewrite clamp_nonneg by lia. rewrite !relIndex_beyond by lia. lia.
Qed.

Lemma slice_0_clamp (s : jsstring) (i : Z) :
  0 <= i -> slice s 0 (Some (Spec.clamp (len s) i)) = slice s 0 (Some i).
Proof. intros H. rewrite !slice_0_resolved, relIndex_clamp by exact H. reflexivity. Qed.

Lemma slice_end_clamp (s : jsstring) (i : Z) :
  0 <= i -> slice s (Spec.clamp (len s) i) None = slice s i None.
Proof. intros H. rewrite !slice_end_resolved, relIndex_clamp by exact H. reflexivity. Qed.

(** C9, amended.  Both functions are total (no built-in they call can
    throw).  Non-negative offsets beyond the end of the text act as the
    clamped ones: always in [insertAt]; in [deleteOneGrapheme] for a caret
    ([start = end]) and for a selection that starts inside the text. *)
Theorem offsets_beyond_end (T fragment : jsstring) (s e : Z) :
  0 <= s -> 0 <= e ->
  insertAt T fragment s e =
    insertAt T fragment (Spec.clamp (len T) s) (Spec.clamp (len T) e) /\
  deleteOneGrapheme T s s =
    deleteOneGrapheme T (Spec.clamp (len T) s) (Spec.clamp (len T) s) /\
  (s < e -> s < len T ->
   deleteOneGrapheme T s e =
     deleteOneGrapheme T (Spec.clamp (len T) s) (Spec.clamp (len T) e)).
Proof.
  intros Hs He. pose proof (len_nonneg T) as Hl. split; [| split].
  - unfold insertAt. rewrite slice_0_clamp, slice_end_clamp by assumption.
    reflexivity.
  - unfold deleteOneGrapheme. rewrite !Z.eqb_refl. simpl negb. cbv iota.
    destruct (Z.leb_spec s 0) as [Hz | Hpos].
    + replace s with 0 by lia. rewrite clamp_nonneg by lia.
      rewrite Z.min_l by lia. reflexivity.
    + destruct (Z.leb_spec (Spec.clamp (len T) s) 0) as [Hc | Hc].
      * rewrite clamp_nonneg in Hc by lia.
        assert (HT : T = []).
        { destruct T; [reflexivity |]. unfold len in *. simpl length in *. lia. }
        subst T. rewrite !slice_nil.
        replace (Spec.clamp (len []) s) with 0 by (rewrite clamp_nonneg; lia).
        reflexivity.
      * rewrite slice_0_clamp, slice_end_clamp by lia. reflexivity.
  - intros Hse Hin. unfold deleteOneGrapheme.
    rewrite !clamp_nonneg by lia. rewrite (Z.min_l s) by lia.
    destruct (Z.eqb_spec s e) as [| _]; [lia |].
    destruct (Z.eqb_spec s (Z.min e (len T))) as [| _]; [lia |].
    simpl negb. cbv iota. rewrite <- (clamp_nonneg (len T) e) by lia.
    rewrite slice_end_clamp by lia. reflexivity.
Qed.

Lemma offsets_beyond_end_witness :
  insertAt Sample.ab [88] 1 7 =
    insertAt Sample.ab [88]
      (Spec.clamp (len Sample.ab) 1) (Spec.clamp (len Sample.ab) 7) /\
  deleteOneGrapheme Sample.ab 1 1 =
    deleteOneGrapheme Sample.ab
      (Spec.clamp (len Sample.ab) 1) (Spec.clamp (len Sample.ab) 1) /\
  deleteOneGrapheme Sample.ab 1 7 =
    deleteOneGrapheme Sample.ab
      (Spec.clamp (len Sample.ab) 1) (Spec.clamp (len Sample.ab) 7).
Proof.
  destruct (offsets_beyond_end Sample.ab [88] 1 7) as (H1 & H2 & H3).
  - lia.
  - lia.
  - split; [exact H1 | split; [exact H2 |]].
    apply H3; vm_compute; reflexivity.
Defined.

Example caret_beyond_end :
  deleteOneGrapheme Sample.ab 9 9 = {| nextText := [97]; nextCursor := 1 |}.
Proof. reflexivity. Qed.

(* ===================================================================== *)
(** ** The unit of the caret                                              *)
(* ===================================================================== *)

(** A fragment with an astral code point has fewer code points than code
    units. *)
Lemma astral_fewer_codepoints (s : jsstring) :
  wf_string s -> Exists Spec.astral (Spec.codepoints s) ->
  (length (Spec.codepoints s) < length s)%nat.
Proof.
  rewrite codepoints_array_from, length_map.
  induction s as [| c rest Hc IH | c d rest Hp IH] using codepoint_ind;
    intros Hwf Hex.
  - inversion Hex.
  - rewrite array_from_single in * by assumption.
    inversion Hwf as [| ? ? Hu Hrest]; subst.
    simpl in Hex. apply Exists_cons in Hex as [Ha | Hex].
    + rewrite code_of_unit in Ha. unfold Spec.astral, is_code_unit in *. lia.
    + specialize (IH Hrest Hex). simpl. lia.
  - rewrite array_from_pair by assumption.
    pose proof (length_array_from rest). simpl. lia.
Qed.

Lemma skipn_len_app (a b : jsstring) : Spec.from (a ++ b) (len a) = b.
Proof.
  unfold Spec.from, len. rewrite Nat2Z.id, skipn_app, Nat.sub_diag, skipn_all.
  reflexivity.
Qed.

(** C10.  [handleInsert] advances the caret by the number of code points of
    the fragment; for a fragment with an astral code point that is strictly
    less than its length in code units, so the caret stops short of the end
    of the inserted fragment.  [deleteOneGrapheme] returns its cursor in
    code units: it is the offset at which the untouched right part starts
    in the new text. *)
Theorem caret_units_differ (st : ScreenState) (fragment : jsstring) :
  wf_string fragment ->
  Exists Spec.astral (Spec.codepoints fragment) ->
  let s := sel_start (selection st) in
  sel_start (selection (handleInsert st fragment)) =
    s + Z.of_nat (length (Spec.codepoints fragment)) /\
  sel_start (selection (handleInsert st fragment)) < s + len fragment /\
  (forall (T : jsstring) (c : Z), 0 < c <= len T ->
     let d := deleteOneGrapheme T c c in
     Spec.from (nextText d) (nextCursor d) = Spec.from T c).
Proof.
  intros Hwf Hex s. split; [| split].
  - unfold handleInsert. simpl.
    rewrite codepoints_array_from, length_map. reflexivity.
  - unfold handleInsert. simpl.
    pose proof (astral_fewer_codepoints fragment Hwf Hex) as Hlt.
    rewrite codepoints_array_from, length_map in Hlt.
    unfold s, len. lia.
  - intros T c Hc d. unfold d.
    rewrite deleteOneGrapheme_caret_eq by exact Hc. simpl.
    apply skipn_len_app.
Qed.

Lemma caret_units_differ_witness :
  let s := sel_start (selection Sample.scenario_state) in
  sel_start (selection (handleInsert Sample.scenario_state Sample.fire)) =
    s + Z.of_nat (length (Spec.codepoints Sample.fire)) /\
  sel_start (selection (handleInsert Sample.scenario_state Sample.fire)) <
    s + len Sample.fire /\
  (let d := deleteOneGrapheme Sample.ab_grinning_cd 4 4 in
   Spec.from (nextText d) (nextCursor d) = Spec.from Sample.ab_grinning_cd 4).
Proof.
  destruct (caret_units_differ Sample.scenario_state Sample.fire) as (H1 & H2 & H3).
  - repeat constructor; vm_compute; discriminate.
  - change (Exists Spec.astral [0x1F525]). constructor. unfold Spec.astral. lia.
  - split; [exact H1 | split; [exact H2 |]].
    apply H3. vm_compute. split; [reflexivity | discriminate].
Defined.

(* ===================================================================== *)
(** ** Further properties of insertion and deletion                       *)
(* ===================================================================== *)

Lemma len_upto (T : jsstring) (n : Z) :
  0 <= n <= len T -> len (Spec.upto T n) = n.
Proof.
  intros H. unfold Spec.upto, len in *. rewrite length_firstn. lia.
Qed.

Lemma len_from (T : jsstring) (n : Z) :
  0 <= n <= len T -> len (Spec.from T n) = len T - n.
Proof.
  intros H. unfold Spec.from, len in *. rewrite length_skipn. lia.
Qed.

Lemma upto_from (T : jsstring) (n : Z) : Spec.upto T n ++ Spec.from T n = T.
Proof. apply firstn_skipn. Qed.

Lemma upto_len_app (a b : jsstring) : Spec.upto (a ++ b) (len a) = a.
Proof.
  unfold Spec.upto, len. rewrite Nat2Z.id, firstn_app, Nat.sub_diag, firstn_all.
  simpl. apply app_nil_r.
Qed.

(** The text produced by [insertAt] for offsets inside the text, cut at
    the two ends of the fragment. *)
Lemma insertAt_inside (T fragment : jsstring) (s e : Z) :
  0 <= s -> s <= e -> e <= len T ->
  insertAt T fragment s e = Spec.upto T s ++ fragment ++ Spec.from T e.
Proof.
  intros H0 H1 H2. unfold insertAt.
  rewrite slice_prefix, slice_suffix by lia. reflexivity.
Qed.

(** X1.  The fragment goes in as one contiguous block at the selection start:
    the text before [start] and the text from [end] on are untouched, the
    fragment sits between them, and the length changes accordingly. *)
Theorem insertAt_contiguous (T fragment : jsstring) (s e : Z) :
  0 <= s -> s <= e -> e <= len T ->
  let R := insertAt T fragment s e in
  Spec.upto R s = Spec.upto T s /\
  Spec.upto (Spec.from R s) (len fragment) = fragment /\
  Spec.from R (s + len fragment) = Spec.from T e /\
  len R = len T - (e - s) + len fragment.
Proof.
  intros H0 H1 H2 R. unfold R. rewrite insertAt_inside by assumption.
  assert (Hs : len (Spec.upto T s) = s) by (apply len_upto; lia).
  assert (He : len (Spec.from T e) = len T - e) by (apply len_from; lia).
  remember (Spec.upto T s) as L eqn:HL. clear HL.
  repeat split.
  - rewrite <- Hs. apply upto_len_app.
  - rewrite <- Hs, skipn_len_app. apply upto_len_app.
  - rewrite app_assoc, <- Hs, <- len_app. apply skipn_len_app.
  - rewrite !len_app. lia.
Qed.

Lemma insertAt_contiguous_witness :
  let R := insertAt Sample.ab_grinning_cd Sample.fire 2 4 in
  Spec.upto R 2 = Spec.upto Sample.ab_grinning_cd 2 /\
  Spec.upto (Spec.from R 2) (len Sample.fire) = Sample.fire /\
  Spec.from R (2 + len Sample.fire) = Spec.from Sample.ab_grinning_cd 4 /\
  len R = len Sample.ab_grinning_cd - (4 - 2) + len Sample.fire.
Proof. apply insertAt_contiguous; vm_compute; discriminate. Defined.

(** X2.  Whatever the two offsets are, as long as they differ, backspace gives
    the text of an insertion of the empty string at the same offsets and
    returns [cursorStart] as it got it. *)
Theorem range_delete_is_empty_insert (T : jsstring) (s e : Z) :
  s <> e ->
  nextText (deleteOneGrapheme T s e) = insertAt T [] s e /\
  nextCursor (deleteOneGrapheme T s e) = s.
Proof.
  intros Hne. unfold deleteOneGrapheme, insertAt.
  destruct (Z.eqb_spec s e) as [Heq | _]; [contradiction |].
  split; reflexivity.
Qed.

Lemma range_delete_is_empty_insert_witness :
  nextText (deleteOneGrapheme Sample.ab_grinning_cd (-2) 9) =
    insertAt Sample.ab_grinning_cd [] (-2) 9 /\
  nextCursor (deleteOneGrapheme Sample.ab_grinning_cd (-2) 9) = -2.
Proof. apply range_delete_is_empty_insert. discriminate. Defined.

(** X3.  A selection given back to front is not put in order: the text between
    the two offsets is doubled instead of removed. *)
Theorem deleteOneGrapheme_reversed (T : jsstring) (s e : Z) :
  0 <= e -> e < s -> s <= len T ->
  let d := deleteOneGrapheme T s e in
  nextText d = Spec.upto T s ++ Spec.from T e /\
  len (nextText d) = len T + (s - e) /\
  nextCursor d = s.
Proof.
  intros H0 H1 H2 d. unfold d, deleteOneGrapheme.
  destruct (Z.eqb_spec s e) as [Heq | _]; [lia |]. simpl.
  rewrite slice_prefix, slice_suffix by lia.
  repeat split. rewrite len_app, len_upto, len_from by lia. lia.
Qed.

Lemma deleteOneGrapheme_reversed_witness :
  let d := deleteOneGrapheme Sample.ab 2 0 in
  nextText d = Spec.upto Sample.ab 2 ++ Spec.from Sample.ab 0 /\
  len (nextText d) = len Sample.ab + (2 - 0) /\
  nextCursor d = 2.
Proof.
  apply deleteOneGrapheme_reversed; vm_compute; first [discriminate | reflexivity].
Defined.

Lemma is_low_of_high (u : Z) : is_high u = true -> is_low u = false.
Proof.
  unfold is_high, is_low. rewrite andb_true_iff, !Z.leb_le. intros H.
  destruct (Z.leb_spec 0xDC00 u); [lia | reflexivity].
Qed.

(** The decomposition of a concatenation, when the second part does not
    start with a low surrogate. *)
Lemma array_from_app (a b : jsstring) :
  is_low (hd 0 b) = false ->
  array_from (a ++ b) = array_from a ++ array_from b.
Proof.
  intros Hb.
  induction a as [| c rest Hc IH | c d rest Hp IH] using codepoint_ind.
  - reflexivity.
  - rewrite array_from_single by assumption.
    change ((c :: rest) ++ b) with (c :: (rest ++ b)).
    rewrite array_from_single, IH; [reflexivity |].
    destruct rest as [| r rest'].
    + destruct b as [| d b']; [reflexivity |]. simpl in *.
      rewrite Hb. apply andb_false_r.
    + rewrite starts_pair_app by discriminate. exact Hc.
  - rewrite array_from_pair by assumption.
    change ((c :: d :: rest) ++ b) with (c :: d :: (rest ++ b)).
    rewrite array_from_pair, IH by assumption. reflexivity.
Qed.

(** The text before a caret inside the text ends with a last piece. *)
Lemma caret_last_piece (T : jsstring) (c : Z) :
  0 < c <= len T ->
  exists ps p,
    array_from (Spec.upto T c) = ps ++ [p] /\
    piece_of (fun _ => True) p /\
    Spec.upto T c = join ps ++ p.
Proof.
  intros Hc.
  pose proof (array_from_shapes (Spec.upto T c)) as Hs.
  pose proof (join_array_from (Spec.upto T c)) as Hj.
  destruct (array_from (Spec.upto T c)) as [| q qs] eqn:E.
  - exfalso. apply (upto_nonempty T c Hc). rewrite <- Hj. reflexivity.
  - exists (removelast (q :: qs)), (last (q :: qs) []).
    assert (Hl : q :: qs = removelast (q :: qs) ++ [last (q :: qs) []])
      by (apply app_removelast_last; discriminate).
    split; [exact Hl |]. rewrite Hl in Hs, Hj.
    apply Forall_app in Hs as [_ Hp]. inversion Hp; subst.
    split; [assumption |].
    rewrite <- Hj. unfold join. rewrite concat_app. simpl.
    rewrite app_nil_r. reflexivity.
Qed.

Lemma len_piece (U : Z -> Prop) (p : jsstring) :
  piece_of U p -> len p = 1 \/ len p = 2.
Proof. intros [u _ | hi lo _]; [left | right]; reflexivity. Qed.

(** X4.  With a caret inside the text, backspace removes the one or two code
    units right before the caret and nothing else, and moves the cursor to
    where they began.  Two units go exactly when they are a high surrogate
    followed by a low one. *)
Theorem deleteOneGrapheme_caret_slice (T : jsstring) (c : Z) :
  0 < c <= len T ->
  let d := deleteOneGrapheme T c c in
  (nextCursor d = c - 1 \/ nextCursor d = c - 2) /\
  nextText d = Spec.upto T (nextCursor d) ++ Spec.from T c /\
  (nextCursor d = c - 2 <->
   exists a h l, Spec.upto T c = a ++ [h; l] /\ is_high h && is_low l = true).
Proof.
  intros Hc d. unfold d. rewrite deleteOneGrapheme_caret_eq by exact Hc.
  destruct (caret_last_piece T c Hc) as (ps & p & Harr & Hp & Hleft).
  cbn [nextText nextCursor]. rewrite Harr. unfold pop. rewrite removelast_last.
  assert (Hlen : len (join ps) + len p = c).
  { rewrite <- len_app, <- Hleft. apply len_upto. lia. }
  split; [| split].
  - destruct (len_piece _ p Hp); lia.
  - f_equal. rewrite <- (upto_from T c) at 1. rewrite Hleft, <- app_assoc.
    symmetry. apply upto_len_app.
  - split.
    + intros H2. destruct Hp as [u _ | h l Hpair].
      * change (len [u]) with 1 in Hlen. lia.
      * exists (join ps), h, l. split; assumption.
    + intros (a & h & l & Ha & Hpair).
      assert (Hh : is_low (hd 0 [h; l]) = false).
      { apply is_low_of_high. apply andb_prop in Hpair. tauto. }
      rewrite Ha, (array_from_app a [h; l] Hh) in Harr.
      rewrite array_from_pair in Harr by exact Hpair.
      apply app_inj_tail in Harr as [_ <-].
      change (len [h; l]) with 2 in Hlen. lia.
Qed.

Lemma deleteOneGrapheme_caret_slice_witness :
  let d := deleteOneGrapheme Sample.ab_grinning_cd 4 4 in
  (nextCursor d = 4 - 1 \/ nextCursor d = 4 - 2) /\
  nextText d = Spec.upto Sample.ab_grinning_cd (nextCursor d) ++
               Spec.from Sample.ab_grinning_cd 4 /\
  (nextCursor d = 4 - 2 <->
   exists a h l, Spec.upto Sample.ab_grinning_cd 4 = a ++ [h; l] /\
                 is_high h && is_low l = true).
Proof.
  apply deleteOneGrapheme_caret_slice.
  vm_compute. split; [reflexivity | discriminate].
Defined.

Lemma backspace_behind_fragment (T fragment : jsstring) (s e : Z) :
  0 <= s -> s <= e -> e <= len T ->
  piece_of (fun u => is_low u = false) fragment ->
  deleteOneGrapheme (insertAt T fragment s e)
    (s + len fragment) (s + len fragment) =
  {| nextText := Spec.upto T s ++ Spec.from T e; nextCursor := s |}.
Proof.
  intros H0 H1 H2 Hp.
  pose proof (len_piece _ fragment Hp) as Hf.
  assert (Hs : len (Spec.upto T s) = s) by (apply len_upto; lia).
  assert (He : len (Spec.from T e) = len T - e) by (apply len_from; lia).
  assert (Harr : array_from (Spec.upto T s ++ fragment) =
                 array_from (Spec.upto T s) ++ [fragment]).
  { rewrite array_from_app.
    - f_equal. destruct Hp as [u Hu | h l Hpair]; [reflexivity |].
      apply array_from_pair. exact Hpair.
    - destruct Hp as [u Hu | h l Hpair]; [exact Hu |].
      apply is_low_of_high. apply andb_prop in Hpair. tauto. }
  rewrite deleteOneGrapheme_caret_eq.
  - rewrite insertAt_inside by assumption.
    assert (Hcut : s + len fragment = len (Spec.upto T s ++ fragment))
      by (rewrite len_app; lia).
    rewrite app_assoc, Hcut, upto_len_app, skipn_len_app, Harr.
    unfold pop. rewrite removelast_last, join_array_from, Hs. reflexivity.
  - rewrite insertAt_inside by assumption. rewrite !len_app. lia.
Qed.

(** X5.  Backspace with the caret right behind a freshly inserted code point
    takes that code point away again: what is left is the text with the
    selection removed, and the cursor is back at the selection start. *)
Theorem delete_after_insert (T fragment : jsstring) (s e : Z) :
  0 <= s -> s <= e -> e <= len T ->
  piece_of (fun u => is_low u = false) fragment ->
  deleteOneGrapheme (insertAt T fragment s e)
    (s + len fragment) (s + len fragment) =
  {| nextText := Spec.upto T s ++ Spec.from T e; nextCursor := s |}.
Proof. apply backspace_behind_fragment. Qed.

Lemma delete_after_insert_witness :
  deleteOneGrapheme (insertAt Sample.ab_grinning_cd Sample.fire 2 4)
    (2 + len Sample.fire) (2 + len Sample.fire) =
  {| nextText := Spec.upto Sample.ab_grinning_cd 2 ++
                 Spec.from Sample.ab_grinning_cd 4;
     nextCursor := 2 |}.
Proof.
  apply delete_after_insert; try (vm_compute; discriminate).
  apply piece_pair. reflexivity.
Defined.

(** X6.  A key whose emoji is one code unit (not a low surrogate) and the
    backspace key undo each other at a caret inside the text. *)
Theorem handleBackspace_handleInsert_unit
  (T : jsstring) (s u : Z) (kb : bool) :
  0 <= s <= len T -> is_low u = false ->
  let st := {| value := T;
               selection := {| sel_start := s; sel_end := s |};
               openKB := kb |} in
  handleBackspace (handleInsert st [u]) = st.
Proof.
  intros Hs Hu st. unfold st, handleBackspace, handleInsert.
  cbn [value selection sel_start sel_end openKB array_from length].
  change (Z.of_nat 1) with (len [u]).
  rewrite backspace_behind_fragment by (try lia; constructor; exact Hu).
  cbn [nextText nextCursor]. rewrite upto_from. reflexivity.
Qed.

Lemma handleBackspace_handleInsert_unit_witness :
  let st := {| value := Sample.ab_grinning_cd;
               selection := {| sel_start := 2; sel_end := 2 |};
               openKB := true |} in
  handleBackspace (handleInsert st [0x2728]) = st.
Proof.
  apply handleBackspace_handleInsert_unit.
  - vm_compute. split; discriminate.
  - reflexivity.
Defined.

(** X7.  A key whose emoji is a surrogate pair is not undone by backspace: the
    caret stands inside the pair, only the high surrogate goes, and the low
    surrogate stays in the text. *)
Theorem handleBackspace_handleInsert_pair
  (T : jsstring) (s h l : Z) (kb : bool) :
  0 <= s <= len T -> is_high h && is_low l = true ->
  let st := {| value := T;
               selection := {| sel_start := s; sel_end := s |};
               openKB := kb |} in
  handleBackspace (handleInsert st [h; l]) =
  {| value := Spec.upto T s ++ [l] ++ Spec.from T s;
     selection := {| sel_start := s; sel_end := s |};
     openKB := kb |}.
Proof.
  intros Hs Hpair st. unfold st, handleBackspace, handleInsert.
  cbn [value selection sel_start sel_end openKB].
  rewrite array_from_pair by exact Hpair. cbn [array_from length].
  assert (Hh : is_low (hd 0 [h]) = false).
  { apply is_low_of_high. apply andb_prop in Hpair. tauto. }
  assert (HL : len (Spec.upto T s) = s) by (apply len_upto; lia).
  pose proof (len_nonneg (Spec.from T s)) as HR.
  rewrite insertAt_inside by lia.
  remember (Spec.upto T s) as L eqn:EL. remember (Spec.from T s) as R eqn:ER.
  clear EL ER.
  change (L ++ [h; l] ++ R) with (L ++ [h] ++ [l] ++ R).
  assert (Hcut : s + Z.of_nat 1 = len (L ++ [h])) by (rewrite len_app, HL; reflexivity).
  rewrite deleteOneGrapheme_caret_eq.
  - rewrite app_assoc, Hcut, upto_len_app, skipn_len_app.
    rewrite (array_from_app L [h] Hh). cbn [array_from].
    unfold pop. rewrite removelast_last, join_array_from, HL. reflexivity.
  - rewrite !len_app, HL. change (len [h]) with 1. change (len [l]) with 1. lia.
Qed.

Lemma handleBackspace_handleInsert_pair_witness :
  let st := {| value := Sample.ab_grinning_cd;
               selection := {| sel_start := 2; sel_end := 2 |};
               openKB := true |} in
  handleBackspace (handleInsert st [0xD83D; 0xDD25]) =
  {| value := Spec.upto Sample.ab_grinning_cd 2 ++ [0xDD25] ++
              Spec.from Sample.ab_grinning_cd 2;
     selection := {| sel_start := 2; sel_end := 2 |};
     openKB := true |}.
Proof.
  apply handleBackspace_handleInsert_pair.
  - vm_compute. split; discriminate.
  - reflexivity.
Defined.

(* ===================================================================== *)
(** ** Further properties of the input filter                             *)
(* ===================================================================== *)

Lemma strippedb_false_iff (cp : Z) :
  Spec.strippedb cp = false <-> ~ Spec.stripped cp.
Proof.
  rewrite <- strippedb_iff. destruct (Spec.strippedb cp); intuition congruence.
Qed.

Lemma Forall_strippedb_false (s : list Z) :
  Forall (fun u => Spec.strippedb u = false) s <->
  Forall (fun u => ~ Spec.stripped u) s.
Proof.
  rewrite !Forall_forall. split; intros H u Hu; apply strippedb_false_iff, H, Hu.
Qed.

(** X8.  The filter leaves a text as it is exactly when none of its code units
    is an ASCII digit, an ASCII letter or a Hangul syllable or jamo. *)
Theorem filterNonEmoji_fixed_iff (T : jsstring) :
  filterNonEmoji T = T <-> Forall (fun u => ~ Spec.stripped u) T.
Proof.
  rewrite <- Forall_strippedb_false. split.
  - intros H. rewrite <- H. apply filterNonEmoji_units.
  - intros H. unfold filterNonEmoji. rewrite filter_keeps_fixed by exact H.
    apply join_array_from.
Qed.

Lemma filter_fixed_Forall {A : Type} (f : A -> bool) (l : list A) :
  filter f l = l -> Forall (fun a => f a = true) l.
Proof.
  intros H. apply Forall_forall. apply forallb_forall.
  rewrite <- H. apply forallb_filter.
Qed.

(** X9.  Whatever the input, the filtered text holds no stripped character:
    neither as a code unit nor as a code point of its decomposition. *)
Theorem filterNonEmoji_clean (T : jsstring) :
  Forall (fun u => ~ Spec.stripped u) (filterNonEmoji T) /\
  Forall (fun cp => ~ Spec.stripped cp) (Spec.codepoints (filterNonEmoji T)).
Proof.
  pose proof (filterNonEmoji_units T) as Hu. split.
  - apply Forall_strippedb_false, Hu.
  - rewrite codepoints_array_from. apply Forall_map.
    pose proof (filter_fixed_Forall _ _ (filter_keeps_fixed _ Hu)) as Hk.
    apply Forall_forall. intros p Hp.
    rewrite Forall_forall in Hk. specialize (Hk p Hp).
    rewrite keeps_code_of in Hk. apply strippedb_false_iff.
    destruct (Spec.strippedb (code_of p)); [discriminate | reflexivity].
Qed.

Lemma concat_filter_length (f : jsstring -> bool) (ps : list jsstring) :
  Forall (fun p => p <> []) ps ->
  (length (concat (filter f ps)) <= length (concat ps))%nat /\
  (length (concat (filter f ps)) = length (concat ps) -> filter f ps = ps).
Proof.
  induction 1 as [| p ps Hp _ [IHle IHeq]]; [split; auto |].
  simpl. destruct (f p); simpl; rewrite !length_app.
  - split; [lia |]. intros E. f_equal. apply IHeq. lia.
  - assert (length p <> 0)%nat by (destruct p; [congruence | discriminate]).
    split; [lia |]. intros E. lia.
Qed.

(** X10.  The filter never makes a text longer, and a text that keeps its length
    is unchanged. *)
Theorem filterNonEmoji_shrinks (T : jsstring) :
  len (filterNonEmoji T) <= len T /\
  (len (filterNonEmoji T) = len T -> filterNonEmoji T = T).
Proof.
  destruct (concat_filter_length keeps (array_from T) (array_from_nonempty T))
    as [Hle Heq].
  fold (join (array_from T)) in Hle, Heq. rewrite join_array_from in Hle, Heq.
  unfold filterNonEmoji, join, len. split; [lia |].
  intros E. rewrite Heq by lia. apply join_array_from.
Qed.

Lemma filterNonEmoji_shrinks_witness :
  len (filterNonEmoji Sample.grinning) <= len Sample.grinning /\
  filterNonEmoji Sample.grinning = Sample.grinning.
Proof.
  destruct (filterNonEmoji_shrinks Sample.grinning) as [Hle Heq].
  split; [exact Hle | apply Heq; reflexivity].
Defined.

Lemma concat_filter_keeps (T : jsstring) :
  concat (filter keeps (array_from T)) =
  filter (fun u => negb (Spec.strippedb u)) T.
Proof.
  induction T as [| c rest Hc IH | c d rest Hp IH] using codepoint_ind.
  - reflexivity.
  - rewrite array_from_single by assumption. simpl.
    rewrite keeps_code_of, code_of_unit.
    destruct (Spec.strippedb c); simpl; rewrite IH; reflexivity.
  - rewrite array_from_pair by assumption. simpl filter.
    rewrite keeps_pair by assumption.
    apply andb_prop in Hp as [Hh Hl].
    rewrite (strippedb_surrogate c) by (rewrite Hh; reflexivity).
    rewrite (strippedb_surrogate d) by (rewrite Hl; apply orb_true_r).
    simpl. rewrite IH. reflexivity.
Qed.

(** X11.  Decomposing into code points makes no difference to the result: the
    filter drops exactly the code units that are themselves ASCII digits,
    ASCII letters or Hangul, and keeps every other unit, surrogates
    included. *)
Theorem filterNonEmoji_unitwise (T : jsstring) :
  filterNonEmoji T = filter (fun u => negb (Spec.strippedb u)) T.
Proof. apply concat_filter_keeps. Qed.

(** X12.  Filtering can be done part by part, wherever the text is cut. *)
Theorem filterNonEmoji_app (a b : jsstring) :
  filterNonEmoji (a ++ b) = filterNonEmoji a ++ filterNonEmoji b.
Proof.
  unfold filterNonEmoji, join. rewrite !concat_filter_keeps. apply filter_app.
Qed.

(* ===================================================================== *)
(** ** Code points of the edited text                                     *)
(* ===================================================================== *)

(** Pieces that are pairs or units other than high surrogates keep their
    boundaries whatever follows them. *)
Lemma array_from_join_scalar_app (ps : list jsstring) (b : jsstring) :
  Forall (piece_of (fun u => is_high u = false)) ps ->
  array_from (join ps ++ b) = ps ++ array_from b.
Proof.
  induction 1 as [| p ps Hp _ IH]; [reflexivity |].
  destruct Hp as [u Hu | hi lo Hpair].
  - change (join ([u] :: ps) ++ b) with (u :: (join ps ++ b)).
    rewrite array_from_single, IH; [reflexivity |].
    unfold starts_pair. destruct (join ps ++ b); [reflexivity |].
    rewrite Hu. reflexivity.
  - change (join ([hi; lo] :: ps) ++ b) with (hi :: lo :: (join ps ++ b)).
    rewrite array_from_pair, IH by assumption. reflexivity.
Qed.

Lemma codepoints_app_scalar (a b : jsstring) :
  Forall Spec.scalar_value (Spec.codepoints a) ->
  Spec.codepoints (a ++ b) = Spec.codepoints a ++ Spec.codepoints b.
Proof.
  intros Ha. rewrite !codepoints_array_from, <- map_app. f_equal.
  rewrite <- (join_array_from a) at 1.
  apply array_from_join_scalar_app, scalar_pieces, Ha.
Qed.

(** X13.  When the text before the caret is a sequence of Unicode scalar values,
    backspace removes exactly its last code point from the code points of
    the whole text. *)
Theorem deleteOneGrapheme_codepoints (T : jsstring) (c : Z) :
  0 < c <= len T ->
  Forall Spec.scalar_value (Spec.codepoints (Spec.upto T c)) ->
  Spec.codepoints T =
    Spec.codepoints (Spec.upto T c) ++ Spec.codepoints (Spec.from T c) /\
  Spec.codepoints (nextText (deleteOneGrapheme T c c)) =
    removelast (Spec.codepoints (Spec.upto T c)) ++
    Spec.codepoints (Spec.from T c).
Proof.
  intros Hc Hsc. split.
  - rewrite <- (upto_from T c) at 1. apply codepoints_app_scalar, Hsc.
  - rewrite deleteOneGrapheme_caret_eq by exact Hc. cbn [nextText].
    rewrite !codepoints_array_from, removelast_map, <- map_app. f_equal.
    apply array_from_join_scalar_app, Forall_removelast, scalar_pieces, Hsc.
Qed.

Lemma deleteOneGrapheme_codepoints_witness :
  Spec.codepoints Sample.ab_grinning_cd =
    Spec.codepoints (Spec.upto Sample.ab_grinning_cd 4) ++
    Spec.codepoints (Spec.from Sample.ab_grinning_cd 4) /\
  Spec.codepoints (nextText (deleteOneGrapheme Sample.ab_grinning_cd 4 4)) =
    removelast (Spec.codepoints (Spec.upto Sample.ab_grinning_cd 4)) ++
    Spec.codepoints (Spec.from Sample.ab_grinning_cd 4).
Proof.
  apply deleteOneGrapheme_codepoints.
  - vm_compute. split; [reflexivity | discriminate].
  - change (Forall Spec.scalar_value [97; 98; 0x1F600]).
    repeat constructor; unfold Spec.scalar_value; lia.
Defined.

(** X14.  When the text before the selection and the fragment are sequences of
    Unicode scalar values, the code points of the result are those before
    the selection, those of the fragment and those after the selection: no
    code point of the fragment merges with its surroundings. *)
Theorem insertAt_codepoints (T fragment : jsstring) (s e : Z) :
  0 <= s -> s <= e -> e <= len T ->
  Forall Spec.scalar_value (Spec.codepoints (Spec.upto T s)) ->
  Forall Spec.scalar_value (Spec.codepoints fragment) ->
  Spec.codepoints (insertAt T fragment s e) =
    Spec.codepoints (Spec.upto T s) ++ Spec.codepoints fragment ++
    Spec.codepoints (Spec.from T e).
Proof.
  intros H0 H1 H2 HT Hf. rewrite insertAt_inside by assumption.
  rewrite codepoints_app_scalar by exact HT.
  rewrite codepoints_app_scalar by exact Hf. reflexivity.
Qed.

Lemma insertAt_codepoints_witness :
  Spec.codepoints (insertAt Sample.ab_grinning_cd Sample.fire 2 4) =
    Spec.codepoints (Spec.upto Sample.ab_grinning_cd 2) ++
    Spec.codepoints Sample.fire ++
    Spec.codepoints (Spec.from Sample.ab_grinning_cd 4).
Proof.
  apply insertAt_codepoints; try (vm_compute; discriminate).
  - change (Forall Spec.scalar_value [97; 98]).
    repeat constructor; unfold Spec.scalar_value; lia.
  - change (Forall Spec.scalar_value [0x1F525]).
    repeat constructor; unfold Spec.scalar_value; lia.
Defined.




(* ===================================================================== *)
(** ** Invariants of the screen                                           *)
(* ===================================================================== *)

Lemma Forall_slice (P : Z -> Prop) (s : jsstring) (a : Z) (b : option Z) :
  Forall P s -> Forall P (slice s a b).
Proof.
  intros H. unfold slice. destruct (_ >=? _); [constructor |].
  set (n := Z.to_nat (relIndex (len s) a)).
  rewrite <- (firstn_skipn n s) in H. apply Forall_app in H as [_ H].
  set (m := Z.to_nat _).
  rewrite <- (firstn_skipn m (skipn n s)) in H. apply Forall_app in H. tauto.
Qed.

Lemma Forall_insertAt (P : Z -> Prop) (T fragment : jsstring) (s e : Z) :
  Forall P T -> Forall P fragment -> Forall P (insertAt T fragment s e).
Proof.
  intros HT Hf. unfold insertAt.
  repeat (apply Forall_app; split); auto using Forall_slice.
Qed.

Lemma Forall_deleteOneGrapheme (P : Z -> Prop) (T : jsstring) (s e : Z) :
  Forall P T -> Forall P (nextText (deleteOneGrapheme T s e)).
Proof.
  intros HT. unfold deleteOneGrapheme.
  destruct (negb (s =? e)); [| destruct (s <=? 0)]; cbn [nextText].
  - apply Forall_app; split; apply Forall_slice, HT.
  - exact HT.
  - apply Forall_app; split; [| apply Forall_slice, HT].
    unfold join, pop. apply Forall_concat, Forall_removelast, Forall_concat.
    fold (join (array_from (slice T 0 (Some s)))).
    rewrite join_array_from. apply Forall_slice, HT.
Qed.

(** No key of the keyboard carries a character the filter strips. *)
Lemma EMOJI_SET_units :
  Forall (Forall (fun u => Spec.strippedb u = false)) EMOJI_SET.
Proof.
  assert (H : forallb (forallb (fun u => negb (Spec.strippedb u))) EMOJI_SET = true)
    by (vm_compute; reflexivity).
  rewrite forallb_forall in H. apply Forall_forall. intros item Hin.
  specialize (H item Hin). rewrite forallb_forall in H.
  apply Forall_forall. intros u Hu. specialize (H u Hu).
  destruct (Spec.strippedb u); [discriminate | reflexivity].
Qed.

Lemma dispatch_units (st : ScreenState) (ev : Event) :
  Forall (fun u => Spec.strippedb u = false) (value st) ->
  Forall (fun u => Spec.strippedb u = false) (value (dispatch st ev)).
Proof.
  intros H. unfold dispatch. destruct (enabled st ev); [| exact H].
  destruct ev as [[idx | |] | | | | t | sel]; cbn [pressKey]; try exact H.
  - destruct (nth_error EMOJI_SET idx) as [item |] eqn:E; [| exact H].
    unfold handleInsert. cbn [value]. apply Forall_insertAt; [exact H |].
    pose proof EMOJI_SET_units as HE. rewrite Forall_forall in HE.
    apply HE. eapply nth_error_In, E.
  - unfold handleBackspace. cbn [value]. apply Forall_deleteOneGrapheme, H.
  - unfold onChangeText. cbn [value]. apply filterNonEmoji_units.
Qed.

(** X16.  Whatever the user taps, types or selects, in whatever order, the text
    of the input is one the filter accepts unchanged. *)
Theorem run_value_passes_filter (evs : list Event) :
  filterNonEmoji (value (run evs)) = value (run evs).
Proof.
  assert (H : Forall (fun u => Spec.strippedb u = false) (value (run evs))).
  { unfold run.
    assert (G : forall st, Forall (fun u => Spec.strippedb u = false) (value st) ->
                Forall (fun u => Spec.strippedb u = false)
                       (value (fold_left dispatch evs st))).
    { induction evs as [| ev evs IH]; intros st Hst; [exact Hst |].
      simpl. apply IH, dispatch_units, Hst. }
    apply G. constructor. }
  unfold filterNonEmoji. rewrite filter_keeps_fixed by exact H.
  apply join_array_from.
Qed.

(** The selection after an insertion or a backspace, from a selection
    inside the text. *)
Lemma handleInsert_bounds (st : ScreenState) (fragment : jsstring) :
  0 <= sel_start (selection st) ->
  sel_start (selection st) <= sel_end (selection st) ->
  sel_end (selection st) <= len (value st) ->
  let st' := handleInsert st fragment in
  0 <= sel_start (selection st') /\
  sel_start (selection st') <= sel_end (selection st') /\
  sel_end (selection st') <= len (value st').
Proof.
  intros H0 H1 H2 st'. unfold st', handleInsert. cbn [value selection sel_start sel_end].
  rewrite insertAt_inside by assumption. rewrite !len_app.
  rewrite len_upto, len_from by lia.
  pose proof (length_array_from fragment). unfold len in *. lia.
Qed.

Lemma handleBackspace_bounds (st : ScreenState) :
  0 <= sel_start (selection st) ->
  sel_start (selection st) <= sel_end (selection st) ->
  sel_end (selection st) <= len (value st) ->
  let st' := handleBackspace st in
  0 <= sel_start (selection st') /\
  sel_start (selection st') <= sel_end (selection st') /\
  sel_end (selection st') <= len (value st').
Proof.
  intros H0 H1 H2 st'. unfold st', handleBackspace.
  cbn [value selection sel_start sel_end].
  set (s := sel_start (selection st)) in *. set (e := sel_end (selection st)) in *.
  set (T := value st) in *.
  destruct (Z.eq_dec s e) as [<- | Hne].
  - destruct (Z.eq_dec s 0) as [-> | Hpos].
    + change (deleteOneGrapheme T 0 0) with (mkDeleted T 0).
      cbn [nextText nextCursor]. lia.
    + rewrite deleteOneGrapheme_caret_eq by lia. cbn [nextText nextCursor].
      rewrite len_app.
      pose proof (len_nonneg (join (pop (array_from (Spec.upto T s))))).
      pose proof (len_nonneg (Spec.from T s)). lia.
  - unfold deleteOneGrapheme.
    destruct (Z.eqb_spec s e) as [Heq | _]; [contradiction |]. simpl.
    rewrite slice_prefix, slice_suffix by lia.
    rewrite len_app, len_upto, len_from by lia. lia.
Qed.

(** X17.  As long as the text is edited through the custom keyboard, and the
    selections reported in between lie inside the text, the selection of
    the screen is ordered and inside the text. *)
Theorem editing_selection_in_bounds (st : ScreenState) :
  editing st ->
  0 <= sel_start (selection st) /\
  sel_start (selection st) <= sel_end (selection st) /\
  sel_end (selection st) <= len (value st).
Proof.
  induction 1 as [| st ev Hst IH Hev | st sel Hst IH Hs0 Hs1 Hs2].
  - vm_compute. repeat split; discriminate.
  - destruct IH as (I0 & I1 & I2).
    unfold dispatch. destruct (enabled st ev); [| tauto].
    destruct ev as [[idx | |] | | | | t | sel]; try discriminate;
      cbn [pressKey handleClose handleFocus onPressInput value selection];
      try tauto.
    + destruct (nth_error EMOJI_SET idx); [| tauto].
      apply handleInsert_bounds; assumption.
    + apply handleBackspace_bounds; assumption.
  - simpl. tauto.
Qed.

Lemma editing_selection_in_bounds_witness :
  let st := dispatch
              (dispatch (dispatch initialState EvFocus) (EvKey (KeyEmoji 18)))
              (EvKey KeyBackspace) in
  0 <= sel_start (selection st) /\
  sel_start (selection st) <= sel_end (selection st) /\
  sel_end (selection st) <= len (value st).
Proof.
  apply editing_selection_in_bounds.
  repeat (apply editing_keyboard; [| reflexivity]). apply editing_init.
Defined.

Lemma length_join_pop_lt (s : jsstring) :
  s <> [] -> (length (join (pop (array_from s))) < length s)%nat.
Proof.
  intros Hs. unfold pop.
  pose proof (array_from_nonempty s) as Hne.
  pose proof (join_array_from s) as Hj.
  destruct (array_from s) as [| p ps] eqn:E.
  - exfalso. apply Hs. rewrite <- Hj. reflexivity.
  - rewrite (app_removelast_last (l := p :: ps) []) in Hne, Hj by discriminate.
    remember (removelast (p :: ps)) as front eqn:Hf.
    remember (last (p :: ps) []) as q eqn:Hq. clear Hf Hq E.
    apply Forall_app in Hne as [_ Hlast]. apply Forall_inv in Hlast.
    apply (f_equal (@length Z)) in Hj. unfold join in *.
    rewrite concat_app, length_app in Hj.
    change (concat [q]) with (q ++ []) in Hj. rewrite app_nil_r in Hj.
    destruct q; [congruence | simpl length in Hj; lia].
Qed.

(** Backspace with the caret at the end of the text: the last code point
    goes and the caret is at the end again. *)
Lemma handleBackspace_at_end (T : jsstring) (kb : bool) :
  handleBackspace
    {| value := T;
       selection := {| sel_start := len T; sel_end := len T |};
       openKB := kb |} =
  {| value := join (pop (array_from T));
     selection := {| sel_start := len (join (pop (array_from T)));
                     sel_end := len (join (pop (array_from T))) |};
     openKB := kb |}.
Proof.
  unfold handleBackspace. cbn [value selection sel_start sel_end openKB].
  destruct T as [| c rest]; [reflexivity |].
  rewrite deleteOneGrapheme_caret_eq
    by (unfold len; simpl length; lia).
  cbn [nextText nextCursor]. unfold Spec.upto, Spec.from, len.
  rewrite Nat2Z.id, firstn_all, skipn_all, app_nil_r. reflexivity.
Qed.

Lemma backspaces_at_end (n : nat) :
  forall (T : jsstring) (kb : bool),
    (length T <= n)%nat ->
    Nat.iter n handleBackspace
      {| value := T;
         selection := {| sel_start := len T; sel_end := len T |};
         openKB := kb |} =
    {| value := [];
       selection := {| sel_start := 0; sel_end := 0 |};
       openKB := kb |}.
Proof.
  induction n as [| n IH]; intros T kb Hn.
  - destruct T; [reflexivity | simpl in Hn; lia].
  - rewrite Nat.iter_succ_r, handleBackspace_at_end. apply IH.
    destruct T as [| c rest]; [simpl; lia |].
    pose proof (length_join_pop_lt (c :: rest)) as Hlt.
    assert (c :: rest <> []) as Hne by discriminate.
    specialize (Hlt Hne). lia.
Qed.

(** X18.  Starting with the caret at the end, as many backspaces as the text has
    code units empty it (the last ones, at the start of the text, change
    nothing any more). *)
Theorem backspace_erases_all (T : jsstring) (kb : bool) :
  Nat.iter (length T) handleBackspace
    {| value := T;
       selection := {| sel_start := len T; sel_end := len T |};
       openKB := kb |} =
  {| value := [];
     selection := {| sel_start := 0; sel_end := 0 |};
     openKB := kb |}.
Proof. apply backspaces_at_end. lia. Qed.
